(** * PaperRef Hub: the merge and duplicate-resolution engine of [app.py]

    A shallow embedding of [normalize_title], [normalize_id],
    [merge_bib_data], [remove_exact_duplicates], [find_similar_entries] and
    the reassembly step of [show_conflict_resolution], with the properties
    the specification states about them.

    Modelling choices.
    - In the engine a Python [str] is a [string]; its characters are read
      as the code points below 256.  On that range [str.lower] only moves
      the ASCII and the Latin-1 capitals, which is what [lower] does.  The
      engine uses normalized keys through equality only.  What the two
      normalizers return on every [str] is stated in [Unicode], on sequences
      of code points and with [str.lower] as a parameter.
    - A dictionary value is a [pyval]: a string, or [None] (the only other
      value the engine itself can store, at [entry['ID'] = old_id]).
    - A bibliographic record (a Python [dict]) is a [gmap string pyval];
      [len] is [size], [d.get(k, v)] is [get].
    - A [dict] whose iteration order is observed ([entry_map],
      [existing_title_map], [existing_id_map]) is an [odict]: an association
      list with unique keys kept in insertion order.
    - A Python exception is a [Raise] in the [result] monad.
    - [bibtexparser.loads] is not part of the program: the two parser
      attempts are parameters of [merge_bib_data]. *)

From Stdlib Require Import Ascii Strings.Byte.
From stdpp Require Import gmap strings list pretty.
From Equations Require Import Equations.

(** * Python data *)

(** ** Values and exceptions *)

Inductive pyval : Type :=
  | VStr (s : string)
  | VNone.

#[global] Instance pyval_eq_dec : EqDecision pyval.
Proof. solve_decision. Defined.

#[global] Instance pyval_countable : Countable pyval.
Proof.
  refine (inj_countable'
            (λ v, match v with VStr s => Some s | VNone => None end)
            (λ o, match o with Some s => VStr s | None => VNone end) _).
  by intros [].
Defined.

Inductive exn : Type :=
  | AttributeError
  | KeyError
  | IndexError.

Inductive result (A : Type) : Type :=
  | Ok (a : A)
  | Raise (e : exn).
Arguments Ok {A} a.
Arguments Raise {A} e.

#[global] Instance result_ret : MRet result := λ A, Ok.
#[global] Instance result_bind : MBind result :=
  λ A B f m, match m with Ok a => f a | Raise e => Raise e end.

(** [for x in l: st = body(st, x)], stopping at the first exception. *)
Fixpoint for_each {S A : Type} (body : S → A → result S) (st : S) (l : list A)
  : result S :=
  match l with
  | [] => Ok st
  | x :: l' => st' ← body st x; for_each body st' l'
  end.

(** [enumerate(l, n)] *)
Fixpoint enumerate_from {A : Type} (n : nat) (l : list A) : list (nat * A) :=
  match l with
  | [] => []
  | x :: l' => (n, x) :: enumerate_from (S n) l'
  end.

(** [str(v)] *)
Definition py_str (v : pyval) : string :=
  match v with
  | VStr s => s
  | VNone => "None"
  end.

(** [bool(v)]: the empty string and [None] are false. *)
Definition truthy (v : pyval) : bool :=
  match v with
  | VStr EmptyString => false
  | VStr _ => true
  | VNone => false
  end.

(** ** Records *)

Abbreviation bib_entry := (gmap string pyval).

(** [e.get(k, d)] *)
Definition get (e : bib_entry) (k : string) (d : pyval) : pyval :=
  default d (e !! k).

(** [e[k]] *)
Definition getitem (e : bib_entry) (k : string) : result pyval :=
  match e !! k with
  | Some v => Ok v
  | None => Raise KeyError
  end.

(** ** Insertion-ordered dictionaries *)

Abbreviation odict := (list (string * bib_entry)).

(** [k in m] / [m[k]] for a key known to be there. *)
Fixpoint od_get (k : string) (m : odict) : option bib_entry :=
  match m with
  | [] => None
  | (k', v) :: m' => if decide (k' = k) then Some v else od_get k m'
  end.

(** [m[k] = v]: an existing key keeps its position, a new key goes last. *)
Fixpoint od_set (k : string) (v : bib_entry) (m : odict) : odict :=
  match m with
  | [] => [(k, v)]
  | (k', v') :: m' =>
      if decide (k' = k) then (k, v) :: m' else (k', v') :: od_set k v m'
  end.

(** [list(m.values())] *)
Definition od_values (m : odict) : list bib_entry := m.*2.

(** [{key(e): e for e in existing}] for a key function that may raise. *)
Definition dict_by (key : bib_entry → result string) (existing : list bib_entry)
  : result odict :=
  for_each (λ m e, k ← key e; Ok (od_set k e m)) [] existing.

(** * The engine *)

(** ** Record Normalizer *)

Definition lower_char (c : ascii) : ascii :=
  let n := nat_of_ascii c in
  if (((65 <=? n) && (n <=? 90))
      || ((192 <=? n) && (n <=? 222) && negb (n =? 215)))%nat
  then ascii_of_nat (n + 32)
  else c.

(** [s.lower()] *)
Fixpoint lower (s : string) : string :=
  match s with
  | EmptyString => EmptyString
  | String c s' => String (lower_char c) (lower s')
  end.

(** Membership in the character class [a-z0-9]. *)
Definition in_class (c : ascii) : bool :=
  let n := nat_of_ascii c in
  (((97 <=? n) && (n <=? 122)) || ((48 <=? n) && (n <=? 57)))%nat.

(** [re.sub(r'[^a-z0-9]', '', s)] *)
Fixpoint strip_class (s : string) : string :=
  match s with
  | EmptyString => EmptyString
  | String c s' => if in_class c then String c (strip_class s') else strip_class s'
  end.

(** [title.lower()] is an attribute access: it raises on [None]. *)
Definition normalize_title (title : pyval) : result string :=
  match title with
  | VStr s => Ok (strip_class (lower s))
  | VNone => Raise AttributeError
  end.

Definition normalize_id (entry_id : pyval) : string :=
  strip_class (lower (py_str entry_id)).

(** ** Merge Engine *)

(** [normalize_title(e.get('title', ''))] *)
Definition title_key (e : bib_entry) : result string :=
  normalize_title (get e "title" (VStr "")).

(** The body of the loop [for entry in new_db.entries], on the state
    [(entry_map, added_count, updated_count)]. *)
Definition merge_entry (st : odict * nat * nat) (entry : bib_entry)
  : result (odict * nat * nat) :=
  let '(entry_map, added_count, updated_count) := st in
  let title := get entry "title" (VStr "") in
  if negb (truthy title) then Ok st
  else
    norm_title ← normalize_title title;
    match od_get norm_title entry_map with
    | Some stored =>
        if (size stored <? size entry)%nat then
          let old_id := get stored "ID" (get entry "ID" VNone) in
          let entry := <["ID" := old_id]> entry in
          Ok (od_set norm_title entry entry_map, added_count, S updated_count)
        else Ok st
    | None =>
        Ok (od_set norm_title entry entry_map, S added_count, updated_count)
    end.

(** [merge_bib_data] from the line that builds [entry_map] on, for a batch
    that was parsed. *)
Definition merge_entries (existing_entries new_entries : list bib_entry)
  : result (list bib_entry * nat * nat) :=
  entry_map ← dict_by title_key existing_entries;
  st ← for_each merge_entry (entry_map, 0, 0) new_entries;
  Ok (od_values st.1.1, st.1.2, st.2).

Section merge_bib_data.
(** [bibtexparser.loads(s)] and [bibtexparser.loads(s, parser=BibTexParser())];
    [None] stands for a raised exception. *)
Variable loads : string → option (list bib_entry).
Variable loads_with_parser : string → option (list bib_entry).

(** What the two nested [try] blocks leave in [new_db.entries]. *)
Definition parse (new_bib_str : string) : option (list bib_entry) :=
  match loads new_bib_str with
  | Some entries => Some entries
  | None => loads_with_parser new_bib_str
  end.

Definition merge_bib_data (existing_entries : list bib_entry)
    (new_bib_str : string) : result (list bib_entry * nat * nat) :=
  match parse new_bib_str with
  | Some new_entries => merge_entries existing_entries new_entries
  | None => Ok (existing_entries, 0, 0)
  end.
End merge_bib_data.

(** ** Exact-Duplicate Filter *)

(** [(norm_title, norm_id)] of one record, as [remove_exact_duplicates] and
    [find_similar_entries] compute it. *)
Definition entry_key (entry : bib_entry) : result (string * string) :=
  norm_title ← normalize_title (get entry "title" (VStr ""));
  let norm_id := normalize_id (get entry "ID" (VStr "")) in
  Ok (norm_title, norm_id).

(** The body of the loop [for entry in entries], on the state
    [(seen_entries, unique_entries)]. *)
Definition dedup_step (st : gset (string * string) * list bib_entry)
    (entry : bib_entry) : result (gset (string * string) * list bib_entry) :=
  let '(seen_entries, unique_entries) := st in
  entry_key ← entry_key entry;
  if decide (entry_key ∉ seen_entries)
  then Ok ({[entry_key]} ∪ seen_entries, unique_entries ++ [entry])
  else Ok (seen_entries, unique_entries).

Definition remove_exact_duplicates (entries : list bib_entry)
  : result (list bib_entry) :=
  st ← for_each dedup_step (∅, []) entries;
  Ok st.2.

(** ** Similarity Grouper *)

(** [normalize_id(e.get('ID', ''))], which cannot raise. *)
Definition id_key (e : bib_entry) : result string :=
  Ok (normalize_id (get e "ID" (VStr ""))).

(** The body of the loop [for j, entry2 in enumerate(entries[i+1:], i+1)],
    on the state [(similar_group, processed)]. *)
Definition inner_step (title1 id1 : string)
    (st : list bib_entry * gset nat) (je : nat * bib_entry)
  : result (list bib_entry * gset nat) :=
  let '(similar_group, processed) := st in
  let '(j, entry2) := je in
  if decide (j ∈ processed) then Ok st
  else
    title2 ← normalize_title (get entry2 "title" (VStr ""));
    let id2 := normalize_id (get entry2 "ID" (VStr "")) in
    if bool_decide (id1 = id2) || bool_decide (title1 = title2)
    then Ok (similar_group ++ [entry2], {[j]} ∪ processed)
    else Ok st.

(** [k in m and m[k][field] == v]: the subscript raises [KeyError] when the
    record found lacks [field]. *)
Definition found_with (m : odict) (k field : string) (v : pyval) : result bool :=
  match od_get k m with
  | Some e => x ← getitem e field; Ok (bool_decide (x = v))
  | None => Ok false
  end.

(** The condition of the [if ... continue] that skips a group; [or]
    evaluates its right operand only when the left one is false. *)
Definition exact_match (existing_title_map existing_id_map : odict)
    (title1 id1 : string) (entry1 : bib_entry) : result bool :=
  by_title ← found_with existing_title_map title1 "ID"
                (get entry1 "ID" (VStr ""));
  if by_title : bool then Ok true
  else found_with existing_id_map id1 "title" (get entry1 "title" (VStr "")).

(** The body of the loop [for i, entry1 in enumerate(entries)], on the state
    [(similar_groups, processed)]. *)
Definition outer_step (existing_title_map existing_id_map : odict)
    (entries : list bib_entry)
    (st : list (list bib_entry) * gset nat) (ie : nat * bib_entry)
  : result (list (list bib_entry) * gset nat) :=
  let '(similar_groups, processed) := st in
  let '(i, entry1) := ie in
  if decide (i ∈ processed) then Ok st
  else
    title1 ← normalize_title (get entry1 "title" (VStr ""));
    let id1 := normalize_id (get entry1 "ID" (VStr "")) in
    inner ← for_each (inner_step title1 id1) ([entry1], {[i]} ∪ processed)
               (enumerate_from (i + 1) (drop (i + 1) entries));
    skip ← exact_match existing_title_map existing_id_map title1 id1 entry1;
    if skip : bool then Ok (similar_groups, inner.2)
    else if (1 <? length inner.1)%nat
         then Ok (similar_groups ++ [inner.1], inner.2)
         else Ok (similar_groups, inner.2).

Definition find_similar_entries (entries existing_entries : list bib_entry)
  : result (list (list bib_entry)) :=
  existing_title_map ← dict_by title_key existing_entries;
  existing_id_map ← dict_by id_key existing_entries;
  st ← for_each (outer_step existing_title_map existing_id_map entries)
         ([], ∅) (enumerate_from 0 entries);
  Ok st.1.

(** ** Conflict Resolver: reassembly on "Continue Import" *)

(** [f"group_{i}_selection"] *)
Definition state_key (i : nat) : string :=
  "group_" +:+ pretty i +:+ "_selection".

(** [conflict_selections.get(state_key, 0)] *)
Definition selected_idx (conflict_selections : gmap string nat) (i : nat) : nat :=
  default 0 (conflict_selections !! state_key i).

(** The body of the loop [for i, group in enumerate(similar_groups)];
    [group[selected_idx]] raises [IndexError] out of range. *)
Definition resolve_step (conflict_selections : gmap string nat)
    (resolved_entries : list bib_entry) (ig : nat * list bib_entry)
  : result (list bib_entry) :=
  let '(i, group) := ig in
  match group !! selected_idx conflict_selections i with
  | Some selected_entry => Ok (resolved_entries ++ [selected_entry])
  | None => Raise IndexError
  end.

(** The branch of [show_conflict_resolution] taken when the button is
    pressed, up to the list handed to [direct_merge_entries]. *)
Definition show_conflict_resolution (similar_groups : list (list bib_entry))
    (conflict_selections : gmap string nat) (all_new_entries : list bib_entry)
  : result (list bib_entry) :=
  resolved_entries ← for_each (resolve_step conflict_selections) []
                        (enumerate_from 0 similar_groups);
  let conflict_ids : gset pyval :=
    list_to_set ((λ entry, get entry "ID" (VStr "")) <$> concat similar_groups) in
  let non_conflicting :=
    filter (λ e, get e "ID" (VStr "") ∉ conflict_ids) all_new_entries in
  Ok (resolved_entries ++ non_conflicting).

(** * The session around the engine *)

(** ** Byte decoding *)

(** The names in [encodings]. *)
Inductive encoding : Type :=
  | utf_8
  | latin_1
  | gbk.

Section safe_decode.
(** [bytes_data.decode('utf-8')] and [bytes_data.decode('gbk')], with [None]
    for [UnicodeDecodeError], and [bytes_data.decode('utf-8',
    errors='ignore')]: codecs of the Python library.  Latin-1 is the codec
    that maps each byte to the code point of the same number. *)
Variable decode_utf_8 : list byte → option string.
Variable decode_gbk : list byte → option string.
Variable decode_utf_8_ignore : list byte → string.

(** [bytes_data.decode(enc)] *)
Definition decode (enc : encoding) (bytes_data : list byte) : option string :=
  match enc with
  | utf_8 => decode_utf_8 bytes_data
  | latin_1 => Some (String.string_of_list_byte bytes_data)
  | gbk => decode_gbk bytes_data
  end.

(** The loop [for enc in encodings], which returns at the first encoding
    that decodes; [None] when the loop runs to its end. *)
Fixpoint decode_first (encodings : list encoding) (bytes_data : list byte)
  : option string :=
  match encodings with
  | [] => None
  | enc :: encodings' =>
      match decode enc bytes_data with
      | Some text => Some text
      | None => decode_first encodings' bytes_data
      end
  end.

Definition safe_decode (bytes_data : list byte) : string :=
  match decode_first [utf_8; latin_1; gbk] bytes_data with
  | Some text => text
  | None => decode_utf_8_ignore bytes_data
  end.
End safe_decode.

(** ** Session state *)

(** The keys of [st.session_state] the import uses; [None] is a key that is
    not in the session. *)
Record session_state : Type := {
  db_entries : list bib_entry;
  import_phase : option string;
  similar_groups : option (list (list bib_entry));
  all_new_entries : option (list bib_entry);
  conflict_selections : option (gmap string nat);
  conflicts_processed : option bool;
}.

(** One file of [st.file_uploader]. *)
Record uploaded_file : Type := {
  name : string;
  getvalue : list byte;
}.

(** What the script shows through [st.error], [st.warning] and
    [st.success], with the numbers and names it puts in the text. *)
Inductive notice : Type :=
  | error_parsing (file_name : string)
  | error_no_valid_entries
  | error_parsing_bibtex
  | warning_similar_groups (n : nat)
  | success_import_complete (total_added total_updated : nat).

(** How a script function ends: it returns, an exception of the engine or
    of a library leaves it, or [st.rerun()] halts the script run. *)
Inductive outcome : Type :=
  | returned
  | raised (e : exn)
  | raised_in_library
  | rerun.

Section session.
Variable decode_utf_8 : list byte → option string.
Variable decode_gbk : list byte → option string.
Variable decode_utf_8_ignore : list byte → string.
Variable loads : string → option (list bib_entry).
Variable loads_with_parser : string → option (list bib_entry).
(** [bibtexparser.dumps(temp_db)] for [temp_db.entries = entries]; [None]
    stands for an exception of the writer. *)
Variable dumps : list bib_entry → option string.

(** [st.session_state.import_phase = phase] *)
Definition set_import_phase (phase : string) (s : session_state)
  : session_state :=
  {| db_entries := db_entries s;
     import_phase := Some phase;
     similar_groups := similar_groups s;
     all_new_entries := all_new_entries s;
     conflict_selections := conflict_selections s;
     conflicts_processed := conflicts_processed s |}.

(** The new library with the five keys of the pending import deleted. *)
Definition merged_and_cleaned (merged_list : list bib_entry) : session_state :=
  {| db_entries := merged_list;
     import_phase := None;
     similar_groups := None;
     all_new_entries := None;
     conflict_selections := None;
     conflicts_processed := None |}.

Definition direct_merge_entries (entries_to_import : list bib_entry)
    (s : session_state) : session_state * list notice * outcome :=
  match dumps entries_to_import with
  | None => (s, [], raised_in_library)
  | Some bib_str =>
      match merge_bib_data loads loads_with_parser (db_entries s) bib_str with
      | Raise e => (s, [], raised e)
      | Ok (merged_list, added, updated) =>
          (merged_and_cleaned merged_list,
           match parse loads loads_with_parser bib_str with
           | Some _ => []
           | None => [error_parsing_bibtex]
           end
           ++ [success_import_complete (0 + added) (0 + updated)],
           rerun)
      end
  end.

(** The body of the loop [for u_file in uploaded_files], on
    [all_new_entries] and what was shown. *)
Definition read_file (acc : list bib_entry * list notice)
    (u_file : uploaded_file) : list bib_entry * list notice :=
  let content :=
    safe_decode decode_utf_8 decode_gbk decode_utf_8_ignore (getvalue u_file) in
  match parse loads loads_with_parser content with
  | Some entries => (acc.1 ++ entries, acc.2)
  | None => (acc.1, acc.2 ++ [error_parsing (name u_file)])
  end.

Definition process_uploaded_files (uploaded_files : list uploaded_file)
    (s : session_state) : session_state * list notice * outcome :=
  let s := set_import_phase "processing" s in
  let '(new_entries, shown) := foldl read_file ([], []) uploaded_files in
  match new_entries with
  | [] => (s, shown ++ [error_no_valid_entries], returned)
  | _ :: _ =>
      match remove_exact_duplicates new_entries with
      | Raise e => (s, shown, raised e)
      | Ok new_entries =>
          match find_similar_entries new_entries (db_entries s) with
          | Raise e => (s, shown, raised e)
          | Ok [] =>
              let '(s', shown', o) := direct_merge_entries new_entries s in
              (s', shown ++ shown', o)
          | Ok groups =>
              ({| db_entries := db_entries s;
                  import_phase := Some "review";
                  similar_groups := Some groups;
                  all_new_entries := Some new_entries;
                  conflict_selections := conflict_selections s;
                  conflicts_processed := conflicts_processed s |},
               shown ++ [warning_similar_groups (length groups)],
               returned)
          end
      end
  end.
End session.

(** * The normalizer on every text *)

(** The engine reads text as Latin-1, which is enough for its properties:
    they use normalized keys through equality only.  What the two
    normalizers return on every Python [str] is stated here, on sequences of
    Unicode code points.  [str.lower] of the Python library is a parameter:
    it is a full case mapping, not a map of characters (it turns U+0130 into
    two code points, and looks at what surrounds a Greek capital sigma). *)
Module Unicode.

(** A Python [str]: its code points. *)
Definition str : Type := list N.

Inductive pyval : Type :=
  | VStr (s : str)
  | VNone.

(** [str(v)]; ['None'] is [78; 111; 110; 101]. *)
Definition py_str (v : pyval) : str :=
  match v with
  | VStr s => s
  | VNone => [78%N; 111%N; 110%N; 101%N]
  end.

(** Membership in the character class [a-z0-9]. *)
Definition in_class (c : N) : bool :=
  (((97 <=? c) && (c <=? 122)) || ((48 <=? c) && (c <=? 57)))%N.

(** [re.sub(r'[^a-z0-9]', '', s)] *)
Fixpoint strip_class (s : str) : str :=
  match s with
  | [] => []
  | c :: s' => if in_class c then c :: strip_class s' else strip_class s'
  end.

Section normalizer.
(** [s.lower()] *)
Variable lower : str → str.

(** [title.lower()] is an attribute access: it raises on [None]. *)
Definition normalize_title (title : pyval) : result str :=
  match title with
  | VStr s => Ok (strip_class (lower s))
  | VNone => Raise AttributeError
  end.

Definition normalize_id (entry_id : pyval) : str :=
  strip_class (lower (py_str entry_id)).
End normalizer.

(** The transform as the specification words it: lower-case, then remove
    every character that is not an ASCII letter or digit. *)
Definition is_ascii_capital (c : N) : bool := ((65 <=? c) && (c <=? 90))%N.

Definition is_ascii_alnum (c : N) : bool :=
  (is_ascii_capital c || ((97 <=? c) && (c <=? 122))
   || ((48 <=? c) && (c <=? 57)))%N.

Fixpoint keep_alnum (s : str) : str :=
  match s with
  | [] => []
  | c :: s' => if is_ascii_alnum c then c :: keep_alnum s' else keep_alnum s'
  end.

Definition normalize_spec (lower : str → str) (s : str) : str :=
  keep_alnum (lower s).

(** What [str.lower] does to ASCII text: the capitals [A-Z] move to [a-z],
    nothing else moves. *)
Definition lower_ascii (s : str) : str :=
  (λ c, if is_ascii_capital c then (c + 32)%N else c) <$> s.

(** The code points of a text of the engine. *)
Fixpoint code_points (s : string) : str :=
  match s with
  | EmptyString => []
  | String c s' => N_of_ascii c :: code_points s'
  end.
End Unicode.

(** * The vocabulary of the specification *)

(** ** Normalization *)

(** An ASCII letter or digit. *)
Definition is_ascii_alnum (c : ascii) : bool :=
  let n := nat_of_ascii c in
  (((65 <=? n) && (n <=? 90)) || ((97 <=? n) && (n <=? 122))
   || ((48 <=? n) && (n <=? 57)))%nat.

(** The transform as the specification words it: lower-case, then remove
    every character that is not an ASCII letter or digit. *)
Fixpoint keep_alnum (s : string) : string :=
  match s with
  | EmptyString => EmptyString
  | String c s' =>
      if is_ascii_alnum c then String c (keep_alnum s') else keep_alnum s'
  end.

Definition normalize_spec (s : string) : string := keep_alnum (lower s).

(** The derived keys of the data model; a missing title or [ID] counts as
    the empty string. *)
Definition normTitle (e : bib_entry) : string :=
  match get e "title" (VStr "") with
  | VStr s => normalize_spec s
  | VNone => ""
  end.

Definition normId (e : bib_entry) : string :=
  normalize_spec (py_str (get e "ID" (VStr ""))).

Definition pair_of (e : bib_entry) : string * string := (normTitle e, normId e).

(** ** Conditions on records *)

(** [if title:] as a decidable predicate on records. *)
Definition titled (e : bib_entry) : Prop :=
  truthy (get e "title" (VStr "")) = true.

#[global] Instance titled_dec (e : bib_entry) : Decision (titled e).
Proof. unfold titled. apply _. Defined.

(** The title, when present, is text: what the parser and the edit form
    store.  [None] can only be stored under [ID]. *)
Definition text_title (e : bib_entry) : Prop := e !! "title" ≠ Some VNone.

(** The record has both a [title] key and an [ID] key. *)
Definition has_title_and_ID (e : bib_entry) : Prop :=
  is_Some (e !! "title") ∧ is_Some (e !! "ID").

(** The title and the [ID] of the record are both absent or empty. *)
Definition blank (e : bib_entry) : Prop :=
  get e "title" (VStr "") = VStr "" ∧ get e "ID" (VStr "") = VStr "".

(** ** The exact-duplicate filter *)

(** The record at position [i] is kept iff its pair is not the pair of a
    record at an earlier position. *)
Definition exact_duplicate_filter (entries : list bib_entry) : list bib_entry :=
  omap (λ p : nat * bib_entry,
          if decide (pair_of p.2 ∈ pair_of <$> take p.1 entries)
          then None else Some p.2)
       (imap (λ i e, (i, e)) entries).

(** ** The anchor scan *)

(** [r2] matches the anchor [r] on normalized [ID] or normalized title. *)
Definition similar (r r2 : bib_entry) : Prop :=
  normId r = normId r2 ∨ normTitle r = normTitle r2.

#[global] Instance similar_dec (r r2 : bib_entry) : Decision (similar r r2).
Proof. unfold similar. apply _. Defined.

(** The anchor scan: the first pending record [r] starts a group that takes
    every later pending record matching [r]; the others stay pending.  A
    group is surfaced when it has at least two members and its anchor is
    not [reconciled] with the library. *)
Equations? anchor_groups (reconciled : bib_entry → bool)
    (batch : list bib_entry) : list (list bib_entry)
    by wf (length batch) lt :=
  anchor_groups reconciled [] := [];
  anchor_groups reconciled (r :: rest) :=
    (if reconciled r then []
     else if (1 <? length (r :: filter (similar r) rest))%nat
          then [r :: filter (similar r) rest]
          else [])
    ++ anchor_groups reconciled (filter (λ r2, ¬ similar r r2) rest).
Proof.
  simpl. apply Nat.lt_succ_r, length_filter.
Qed.

(** The exclusion rule read literally: some existing record with the
    anchor's normalized title has its raw [ID], or some existing record
    with the anchor's normalized [ID] has its raw title. *)
Definition reconciled_with_some (existing : list bib_entry) (r : bib_entry)
  : bool :=
  bool_decide
    (Exists (λ e, normTitle e = normTitle r
                  ∧ e !! "ID" = Some (get r "ID" (VStr ""))) existing
     ∨ Exists (λ e, normId e = normId r
                    ∧ e !! "title" = Some (get r "title" (VStr ""))) existing).

(** The last record of [existing] whose key is [k]: what a dictionary built
    by [{key(e): e for e in existing}] holds under [k]. *)
Definition last_with (key : bib_entry → string) (k : string)
    (existing : list bib_entry) : option bib_entry :=
  last (filter (λ e, key e = k) existing).

(** The exclusion rule on those last records. *)
Definition reconciled_with_last (existing : list bib_entry) (r : bib_entry)
  : bool :=
  match last_with normTitle (normTitle r) existing with
  | Some e => bool_decide (e !! "ID" = Some (get r "ID" (VStr "")))
  | None => false
  end
  || match last_with normId (normId r) existing with
     | Some e => bool_decide (e !! "title" = Some (get r "title" (VStr "")))
     | None => false
     end.

(** ** The reassembly rule *)

(** The raw [ID] of [e] is the raw [ID] of no member of any group. *)
Definition outside_groups (similar_groups : list (list bib_entry))
    (e : bib_entry) : Prop :=
  Forall (Forall (λ member, get e "ID" (VStr "") ≠ get member "ID" (VStr "")))
         similar_groups.

#[global] Instance outside_groups_dec (similar_groups : list (list bib_entry))
    (e : bib_entry) : Decision (outside_groups similar_groups e).
Proof. unfold outside_groups. apply _. Defined.

(** The selections of a pending import, as the specification has them: a
    mapping from group index to the index of the chosen member.  [chosen]
    holds, group by group, the member at the index the mapping gives for
    that group, index 0 where the mapping gives none. *)
Definition one_per_group (similar_groups : list (list bib_entry))
    (selections : gmap nat nat) (chosen : list bib_entry) : Prop :=
  length chosen = length similar_groups
  ∧ ∀ i group, similar_groups !! i = Some group →
      ∃ c, chosen !! i = Some c
           ∧ group !! default 0 (selections !! i) = Some c.

(** * Auxiliary definitions of the proofs *)

(** Keys are unique and every record is stored under its normalized title. *)
Definition od_wf (m : odict) : Prop :=
  NoDup m.*1 ∧ Forall (λ p, title_key p.2 = Ok p.1) m.

(** The mapping already holds, under the title of [e], a record with at
    least as many fields as [e]; records without a title are skipped. *)
Definition covers (m : odict) (e : bib_entry) : Prop :=
  truthy (get e "title" (VStr "")) = false
  ∨ ∃ k stored, title_key e = Ok k ∧ od_get k m = Some stored
                ∧ size e ≤ size stored.

(** What the loop of the reassembly leaves for any dictionary [sel], keys
    of other forms included: the member it read for each group. *)
Definition picked (groups : list (list bib_entry)) (sel : gmap string nat)
    (chosen : list bib_entry) : Prop :=
  length chosen = length groups
  ∧ ∀ i group, groups !! i = Some group →
      ∃ c, chosen !! i = Some c ∧ group !! selected_idx sel i = Some c.

(** The same filter by recursion on the batch, [earlier] being the records
    already passed; used to relate the loop to [exact_duplicate_filter]. *)
Fixpoint keep_unseen (earlier l : list bib_entry) : list bib_entry :=
  match l with
  | [] => []
  | e :: l' =>
      (if decide (pair_of e ∈ pair_of <$> earlier) then [] else [e])
      ++ keep_unseen (earlier ++ [e]) l'
  end.

(** The records of an indexed list whose index is not in [processed]. *)
Definition pending (processed : gset nat) (il : list (nat * bib_entry))
  : list bib_entry :=
  (filter (λ p, p.1 ∉ processed) il).*2.

(** * Sample data *)

Definition lib_deep : bib_entry :=
  {[ "ENTRYTYPE" := VStr "book"; "ID" := VStr "goodfellow16";
     "title" := VStr "Deep Learning" ]}.

Definition new_deep : bib_entry :=
  {[ "ENTRYTYPE" := VStr "book"; "ID" := VStr "dl2016";
     "title" := VStr "deep learning!!"; "year" := VStr "2016" ]}.

Definition new_other : bib_entry :=
  {[ "ENTRYTYPE" := VStr "article"; "ID" := VStr "other";
     "title" := VStr "Other" ]}.

Definition new_untitled : bib_entry :=
  {[ "ENTRYTYPE" := VStr "misc"; "ID" := VStr "note1";
     "author" := VStr "Knuth" ]}.

Definition dup_x1 : bib_entry := {[ "ID" := VStr "x1"; "title" := VStr "A" ]}.

Definition dup_x2 : bib_entry := {[ "ID" := VStr "x2"; "title" := VStr "A" ]}.

(** A parser that answers with a fixed batch. *)
Definition loads_const (batch : list bib_entry) : string → option (list bib_entry) :=
  λ _, Some batch.

(** A parser that rejects every text. *)
Definition loads_fail : string → option (list bib_entry) := λ _, None.

(** Sample records for the grouper. *)
Definition lib_A_x : bib_entry :=
  {[ "ENTRYTYPE" := VStr "article"; "ID" := VStr "x"; "title" := VStr "A" ]}.

Definition lib_B_X : bib_entry :=
  {[ "ENTRYTYPE" := VStr "article"; "ID" := VStr "X"; "title" := VStr "B" ]}.

Definition new_A_X : bib_entry :=
  {[ "ENTRYTYPE" := VStr "article"; "ID" := VStr "X"; "title" := VStr "A" ]}.

Definition new_a_y : bib_entry :=
  {[ "ENTRYTYPE" := VStr "article"; "ID" := VStr "y"; "title" := VStr "a." ]}.

Definition lib_A_no_ID : bib_entry :=
  {[ "ENTRYTYPE" := VStr "article"; "title" := VStr "A" ]}.

Definition lib_x_no_title : bib_entry :=
  {[ "ENTRYTYPE" := VStr "misc"; "ID" := VStr "x" ]}.

(** Sample pending import. *)
Definition new_dl_a : bib_entry :=
  {[ "ENTRYTYPE" := VStr "book"; "ID" := VStr "a";
     "title" := VStr "Deep Learning" ]}.

Definition new_dl_b : bib_entry :=
  {[ "ENTRYTYPE" := VStr "book"; "ID" := VStr "b";
     "title" := VStr "deep learning!!" ]}.

Definition new_c : bib_entry :=
  {[ "ENTRYTYPE" := VStr "article"; "ID" := VStr "c"; "title" := VStr "Other" ]}.

(** A case mapping that is [str.lower] on code points below 256 and moves
    nothing above: a sample for the parameter of [Unicode.normalize_title]. *)
Definition lower_latin_1 (s : Unicode.str) : Unicode.str :=
  (λ c, if (Unicode.is_ascii_capital c
            || ((192 <=? c) && (c <=? 222) && negb (c =? 215)))%N
        then (c + 32)%N else c) <$> s.

(** * Auxiliary definitions of the further properties *)

(** Every record of the existing collection that has an [ID] keeps its
    position, its normalized title and its [ID], and never loses fields. *)
Definition keeps_positions (existing : list bib_entry) (m : odict) : Prop :=
  ∀ i e, existing !! i = Some e →
    ∃ r, m !! i = Some (normTitle e, r) ∧ r !! "ID" = e !! "ID"
         ∧ size e ≤ size r.

(** The file can be parsed by one of the two parser attempts. *)
Definition parses (decode_utf_8 decode_gbk : list byte → option string)
    (decode_utf_8_ignore : list byte → string)
    (loads loads_with_parser : string → option (list bib_entry))
    (u_file : uploaded_file) : Prop :=
  is_Some (parse loads loads_with_parser
             (safe_decode decode_utf_8 decode_gbk decode_utf_8_ignore
                (getvalue u_file))).

#[global] Instance parses_dec decode_utf_8 decode_gbk decode_utf_8_ignore
    loads loads_with_parser u_file :
  Decision (parses decode_utf_8 decode_gbk decode_utf_8_ignore
              loads loads_with_parser u_file).
Proof. unfold parses. apply _. Defined.

(** The session holds no pending import. *)
Definition no_pending_import (s : session_state) : Prop :=
  import_phase s = None ∧ similar_groups s = None ∧ all_new_entries s = None
  ∧ conflict_selections s = None ∧ conflicts_processed s = None.

(** Sample session: a decoder for ASCII bytes, a parser that knows two texts
    and rejects every other one, a writer, and three uploaded files. *)
Definition decode_ascii (bytes_data : list byte) : option string :=
  Some (String.string_of_list_byte bytes_data).

Definition loads_sample (content : string) : option (list bib_entry) :=
  if decide (content = "A") then Some [new_dl_a; new_dl_b; new_c]
  else if decide (content = "C") then Some [new_c]
  else None.

Definition dumps_sample (entries : list bib_entry) : option string :=
  Some "C".

Definition file_a : uploaded_file := {| name := "a.bib"; getvalue := [x41] |}.
Definition file_c : uploaded_file := {| name := "c.bib"; getvalue := [x43] |}.
Definition file_bad : uploaded_file := {| name := "bad.bib"; getvalue := [x3f] |}.

Definition session_start : session_state :=
  {| db_entries := [lib_deep]; import_phase := None; similar_groups := None;
     all_new_entries := None; conflict_selections := None;
     conflicts_processed := None |}.

(** The session after the upload of [file_bad] and [file_a] on
    [session_start]: the review is pending. *)
Definition session_review : session_state :=
  {| db_entries := [lib_deep]; import_phase := Some "review";
     similar_groups := Some [[new_dl_a; new_dl_b]];
     all_new_entries := Some [new_dl_a; new_dl_b; new_c];
     conflict_selections := None; conflicts_processed := None |}.

(** * Properties *)

(** ** Loops in the error monad *)

Lemma result_bind_Ok {A B : Type} (f : A → result B) (a : A) :
  Ok a ≫= f = f a.
Proof. done. Qed.

Lemma for_each_invariant {S A : Type} (P : S → Prop) (body : S → A → result S)
    (l : list A) :
  (∀ st x st', x ∈ l → P st → body st x = Ok st' → P st') →
  ∀ st st', P st → for_each body st l = Ok st' → P st'.
Proof.
  induction l as [|x l IH]; intros Hstep st st' HP; simpl.
  - by intros [= <-].
  - destruct (body st x) as [st1|] eqn:Hb; simpl; [|done].
    apply IH.
    + intros ???? ; apply Hstep. by right.
    + eapply Hstep; [left|done..].
Qed.

Lemma for_each_total {S A : Type} (body : S → A → result S) (l : list A)
    (st : S) :
  (∀ s x, x ∈ l → ∃ s', body s x = Ok s') → ∃ st', for_each body st l = Ok st'.
Proof.
  revert st. induction l as [|x l IH]; intros st Hstep; simpl; [by eauto|].
  destruct (Hstep st x) as [st1 ->]; [left|]. simpl.
  apply IH. intros s y Hy. apply Hstep. by right.
Qed.

Lemma for_each_Ok_elem {S A : Type} (body : S → A → result S) (l : list A)
    (st st' : S) (x : A) :
  for_each body st l = Ok st' → x ∈ l → ∃ s s', body s x = Ok s'.
Proof.
  revert st. induction l as [|y l IH]; intros st; simpl.
  - intros _ Hx. by apply elem_of_nil in Hx.
  - destruct (body st y) as [st1|] eqn:Hy; simpl; [|done].
    intros Hl [->|Hx]%elem_of_cons; [by eauto|]. by eapply IH.
Qed.

Lemma enumerate_from_fst {A : Type} (n : nat) (l : list A) :
  (enumerate_from n l).*1 = seq n (length l).
Proof.
  revert n. induction l as [|x l IH]; intros n; simpl; [done|].
  by rewrite IH.
Qed.

Lemma enumerate_from_snd {A : Type} (n : nat) (l : list A) :
  (enumerate_from n l).*2 = l.
Proof.
  revert n. induction l as [|x l IH]; intros n; simpl; [done|].
  by rewrite IH.
Qed.

Lemma enumerate_from_NoDup {A : Type} (n : nat) (l : list A) :
  NoDup (enumerate_from n l).*1.
Proof. rewrite enumerate_from_fst. apply NoDup_seq. Qed.

Lemma enumerate_from_fresh {A : Type} (n : nat) (l : list A) :
  n ∉ (enumerate_from (S n) l).*1.
Proof. rewrite enumerate_from_fst, elem_of_seq. lia. Qed.

Lemma enumerate_from_elem {A : Type} (n : nat) (l : list A) (p : nat * A) :
  p ∈ enumerate_from n l → p.2 ∈ l.
Proof.
  intros Hp. rewrite <-(enumerate_from_snd n l). by apply list_elem_of_fmap_2.
Qed.

Lemma drop_cons_inv {A : Type} (l l' : list A) (x : A) (i : nat) :
  drop i l = x :: l' → drop (i + 1) l = l'.
Proof.
  intros Hd. rewrite <-drop_drop, Hd. done.
Qed.

Lemma elem_of_concat {A : Type} (x : A) (ls : list (list A)) :
  x ∈ concat ls ↔ ∃ l, x ∈ l ∧ l ∈ ls.
Proof.
  induction ls as [|l ls IH]; simpl.
  - split; [by intros ?%elem_of_nil|].
    by intros (l & _ & ?%elem_of_nil).
  - rewrite elem_of_app, IH. split.
    + intros [Hx|(l' & Hx & Hl')].
      * exists l. split; [done|left].
      * exists l'. split; [done|by right].
    + intros (l' & Hx & [->|Hl']%elem_of_cons); [by left|].
      right. by exists l'.
Qed.

(** ** Record Normalizer *)

Lemma lower_char_class (c : ascii) :
  in_class (lower_char c) = is_ascii_alnum (lower_char c).
Proof. by destruct c as [[] [] [] [] [] [] [] []]. Qed.

Lemma strip_class_lower (s : string) :
  strip_class (lower s) = normalize_spec s.
Proof.
  unfold normalize_spec.
  induction s as [|c s IH]; [done|]; simpl.
  rewrite lower_char_class, IH. done.
Qed.

Lemma truthy_normalize (v : pyval) :
  truthy v = true → ∃ k, normalize_title v = Ok k.
Proof. destruct v as [s|]; [eauto|done]. Qed.

Lemma title_key_text (e : bib_entry) :
  e !! "title" ≠ Some VNone → title_key e = Ok (normTitle e).
Proof.
  unfold title_key, normTitle, get. intros He.
  destruct (e !! "title") as [[s|]|]; simpl; [|done|done].
  by rewrite strip_class_lower.
Qed.

Lemma title_key_None (e : bib_entry) :
  e !! "title" = Some VNone → title_key e = Raise AttributeError.
Proof. unfold title_key, get. by intros ->. Qed.

Lemma title_key_Ok (e : bib_entry) (k : string) :
  title_key e = Ok k → e !! "title" ≠ Some VNone.
Proof. intros Hk He. by rewrite title_key_None in Hk. Qed.

Lemma normalize_id_normId (e : bib_entry) :
  normalize_id (get e "ID" (VStr "")) = normId e.
Proof. unfold normalize_id, normId. apply strip_class_lower. Qed.

Lemma title_key_insert_ID (e : bib_entry) (v : pyval) :
  title_key (<["ID" := v]> e) = title_key e.
Proof. unfold title_key, get. by rewrite lookup_insert_ne. Qed.

Lemma get_title_insert_ID (e : bib_entry) (v : pyval) :
  get (<["ID" := v]> e) "title" (VStr "") = get e "title" (VStr "").
Proof. unfold get. by rewrite lookup_insert_ne. Qed.

(** *** On every text *)

Lemma in_class_code_point (c : ascii) :
  Unicode.in_class (N_of_ascii c) = in_class c.
Proof. by destruct c as [[] [] [] [] [] [] [] []]. Qed.

Lemma strip_class_code_points (s : string) :
  Unicode.strip_class (Unicode.code_points s)
  = Unicode.code_points (strip_class s).
Proof.
  induction s as [|c s IH]; simpl; [done|].
  rewrite in_class_code_point. destruct (in_class c); simpl; by rewrite IH.
Qed.

Lemma lower_latin_1_code_points (s : string) :
  lower_latin_1 (Unicode.code_points s) = Unicode.code_points (lower s).
Proof.
  unfold lower_latin_1. induction s as [|c s IH]; [done|].
  cbn [Unicode.code_points lower]. rewrite fmap_cons, IH. f_equal. clear.
  by destruct c as [[] [] [] [] [] [] [] []].
Qed.

Lemma in_class_ascii (c : N) :
  Unicode.in_class c = true
  → (c < 128)%N ∧ Unicode.is_ascii_capital c = false.
Proof.
  unfold Unicode.in_class, Unicode.is_ascii_capital.
  rewrite orb_true_iff, !andb_true_iff, andb_false_iff, !N.leb_le, !N.leb_gt.
  lia.
Qed.

Lemma strip_class_in_class_text (s : Unicode.str) :
  Forall (λ c, Unicode.in_class c = true) (Unicode.strip_class s).
Proof.
  induction s as [|c s IH]; simpl; [done|].
  destruct (Unicode.in_class c) eqn:Hc; [by constructor|done].
Qed.

Lemma strip_class_fixed (s : Unicode.str) :
  Forall (λ c, Unicode.in_class c = true) s → Unicode.strip_class s = s.
Proof. induction 1 as [|c s Hc _ IH]; simpl; [done|]. by rewrite Hc, IH. Qed.

Lemma strip_class_no_capital (s : Unicode.str) :
  Forall (λ c, Unicode.is_ascii_capital c = false) s →
  Unicode.strip_class s = Unicode.keep_alnum s.
Proof.
  induction 1 as [|c s Hc _ IH]; simpl; [done|].
  unfold Unicode.is_ascii_alnum. rewrite Hc, IH. done.
Qed.

Lemma lower_ascii_fixed (s : Unicode.str) :
  Forall (λ c, Unicode.is_ascii_capital c = false) s →
  Unicode.lower_ascii s = s.
Proof.
  unfold Unicode.lower_ascii.
  induction 1 as [|c s Hc _ IH]; [done|]. by rewrite fmap_cons, Hc, IH.
Qed.

Lemma lower_latin_1_ascii (s : Unicode.str) :
  Forall (λ c, (c < 128)%N) s → lower_latin_1 s = Unicode.lower_ascii s.
Proof.
  unfold lower_latin_1, Unicode.lower_ascii.
  induction 1 as [|c s Hc _ IH]; [done|]. rewrite !fmap_cons, IH. f_equal.
  assert (((192 <=? c) && (c <=? 222) && negb (c =? 215))%N = false) as ->;
    [|by rewrite orb_false_r].
  apply andb_false_iff. left. apply andb_false_iff. left.
  apply N.leb_gt. lia.
Qed.

Lemma lower_latin_1_no_capital (s : Unicode.str) :
  Forall (λ c, Unicode.is_ascii_capital c = false) (lower_latin_1 s).
Proof.
  unfold lower_latin_1. apply Forall_fmap, Forall_forall. intros c _. simpl.
  unfold Unicode.is_ascii_capital.
  destruct (N.leb_spec 65 c), (N.leb_spec c 90), (N.leb_spec 192 c),
    (N.leb_spec c 222), (N.eqb_spec c 215); simpl;
    rewrite ?andb_false_iff, ?N.leb_gt; lia.
Qed.

Section normalizer_on_every_text.
(** [str.lower] of the Python library, with two facts about it: on ASCII
    text it moves the capitals [A-Z] to [a-z] and nothing else, and whatever
    the text it returns no ASCII capital. *)
Variable str_lower : Unicode.str → Unicode.str.
Hypothesis str_lower_ascii :
  ∀ s, Forall (λ c, (c < 128)%N) s → str_lower s = Unicode.lower_ascii s.
Hypothesis str_lower_no_capital :
  ∀ s, Forall (λ c, Unicode.is_ascii_capital c = false) (str_lower s).

(** On Latin-1 text the normalizer of the engine is the normalizer on every
    text, for a case mapping that is [lower] on that text. *)
Lemma normalize_title_latin_1 (s : string) :
  str_lower (Unicode.code_points s) = Unicode.code_points (lower s) →
  Unicode.normalize_title str_lower (Unicode.VStr (Unicode.code_points s))
  = Ok (Unicode.code_points (strip_class (lower s)))
  ∧ normalize_title (VStr s) = Ok (strip_class (lower s)).
Proof. intros Hs. simpl. by rewrite Hs, strip_class_code_points. Qed.

Lemma str_lower_keys (s : Unicode.str) :
  Forall (λ c, Unicode.in_class c = true) s → str_lower s = s.
Proof.
  intros Hs. rewrite str_lower_ascii, lower_ascii_fixed; [done| |].
  - eapply Forall_impl; [done|]. by intros c [_ ?]%in_class_ascii.
  - eapply Forall_impl; [done|]. by intros c [? _]%in_class_ascii.
Qed.

(** C9 (amended). On every string, of whatever code points,
    [normalize_title] returns, and [normalize_id] returns on every value
    through [str(entry_id)]: each gives the lower-cased text stripped of
    whatever is not an ASCII letter or digit, made of [a-z0-9] only.  The
    empty title gives the empty string, and an absent title reaches
    [normalize_title] as the empty string through [e.get('title', '')].
    [normalize_title] itself raises on [None], and [normalize_id] turns
    [None] into the text [none]. *)
Theorem normalizers_total :
  (∀ s : Unicode.str,
     Unicode.normalize_title str_lower (Unicode.VStr s)
     = Ok (Unicode.normalize_spec str_lower s)
     ∧ Forall (λ c, Unicode.in_class c = true)
              (Unicode.normalize_spec str_lower s))
  ∧ Unicode.normalize_title str_lower (Unicode.VStr []) = Ok []
  ∧ (∀ e : bib_entry,
       e !! "title" = None ∨ e !! "title" = Some (VStr "") →
       title_key e = Ok "")
  ∧ Unicode.normalize_title str_lower Unicode.VNone = Raise AttributeError
  ∧ (∀ v : Unicode.pyval,
       Unicode.normalize_id str_lower v
       = Unicode.normalize_spec str_lower (Unicode.py_str v)
       ∧ Forall (λ c, Unicode.in_class c = true)
                (Unicode.normalize_id str_lower v))
  ∧ Unicode.normalize_id str_lower (Unicode.VStr []) = []
  ∧ Unicode.normalize_id str_lower Unicode.VNone
    = [110%N; 111%N; 110%N; 101%N].
Proof.
  assert (∀ s, Unicode.strip_class (str_lower s)
               = Unicode.normalize_spec str_lower s) as Hspec.
  { intros s. by apply strip_class_no_capital. }
  split_and!.
  - intros s. simpl. rewrite <-Hspec.
    split; [done|]. apply strip_class_in_class_text.
  - simpl. by rewrite str_lower_ascii.
  - intros e [He|He]; unfold title_key, get; by rewrite He.
  - done.
  - intros v. unfold Unicode.normalize_id. rewrite Hspec.
    split; [done|]. rewrite <-Hspec. apply strip_class_in_class_text.
  - unfold Unicode.normalize_id. simpl. by rewrite str_lower_ascii.
  - unfold Unicode.normalize_id. simpl.
    rewrite str_lower_ascii; [done|]. by repeat constructor.
Qed.

(** X9. A normalized title or [ID] is its own normalization, whatever the
    code points of the text it came from. *)
Theorem normalize_title_idempotent (v : Unicode.pyval) :
  (k ← Unicode.normalize_title str_lower v;
   Unicode.normalize_title str_lower (Unicode.VStr k))
  = Unicode.normalize_title str_lower v
  ∧ Unicode.normalize_id str_lower
      (Unicode.VStr (Unicode.normalize_id str_lower v))
    = Unicode.normalize_id str_lower v.
Proof.
  assert (∀ s, Unicode.strip_class (str_lower (Unicode.strip_class s))
               = Unicode.strip_class s) as Hkey.
  { intros s. rewrite str_lower_keys by apply strip_class_in_class_text.
    apply strip_class_fixed, strip_class_in_class_text. }
  split.
  - destruct v as [s|]; simpl; [|done]. by rewrite Hkey.
  - unfold Unicode.normalize_id. simpl. by rewrite Hkey.
Qed.
End normalizer_on_every_text.

(** The code points of [Déjà Vu 2] give those of [djvu2]. *)
Lemma normalizers_total_witness :
  Unicode.normalize_title lower_latin_1
    (Unicode.VStr [68%N; 233%N; 106%N; 224%N; 32%N; 86%N; 117%N; 32%N; 50%N])
  = Ok [100%N; 106%N; 118%N; 117%N; 50%N].
Proof.
  apply (proj1 (normalizers_total lower_latin_1 lower_latin_1_ascii
                  lower_latin_1_no_capital)).
Defined.

(** C9, as stated, fails on a missing input: [normalize_title] raises on
    [None], in the engine and on every text, and [normalize_id] does not
    treat [None] as the empty string. *)
Lemma normalize_title_None_counterexample :
  normalize_title VNone = Raise AttributeError
  ∧ Unicode.normalize_title lower_latin_1 Unicode.VNone = Raise AttributeError
  ∧ normalize_id VNone = "none".
Proof. done. Qed.

Lemma normalize_title_idempotent_witness :
  Unicode.normalize_id lower_latin_1
    (Unicode.VStr (Unicode.normalize_id lower_latin_1 Unicode.VNone))
  = Unicode.normalize_id lower_latin_1 Unicode.VNone.
Proof.
  apply (normalize_title_idempotent lower_latin_1 lower_latin_1_ascii).
Defined.

(** ** Insertion-ordered dictionaries *)

Lemma od_get_None (k : string) (m : odict) : od_get k m = None ↔ k ∉ m.*1.
Proof.
  induction m as [|[k' v] m IH]; simpl.
  - split; [intros _; apply not_elem_of_nil|done].
  - case_decide as Hk; [subst|].
    + split; [done|]. intros []. left.
    + rewrite IH, not_elem_of_cons. split; [by split|by intros [_ ?]].
Qed.

Lemma od_get_set_eq (k : string) (v : bib_entry) (m : odict) :
  od_get k (od_set k v m) = Some v.
Proof.
  induction m as [|[k' v'] m IH]; simpl; [by case_decide|].
  case_decide; simpl; by case_decide.
Qed.

Lemma od_get_set_ne (k k' : string) (v : bib_entry) (m : odict) :
  k ≠ k' → od_get k' (od_set k v m) = od_get k' m.
Proof.
  intros Hne. induction m as [|[k0 v0] m IH]; simpl; [by case_decide|].
  destruct (decide (k0 = k)) as [->|]; simpl; repeat case_decide; congruence.
Qed.

Lemma od_set_keys (k : string) (v v0 : bib_entry) (m : odict) :
  od_get k m = Some v0 → (od_set k v m).*1 = m.*1.
Proof.
  induction m as [|[k' v'] m IH]; simpl; [done|].
  case_decide; simpl; [by subst|]. intros ?. f_equal. auto.
Qed.

Lemma od_set_new (k : string) (v : bib_entry) (m : odict) :
  od_get k m = None → od_set k v m = m ++ [(k, v)].
Proof.
  induction m as [|[k' v'] m IH]; simpl; [done|].
  case_decide; [done|]. intros ?. f_equal. auto.
Qed.

Lemma od_set_elem (k : string) (v : bib_entry) (m : odict) (p : string * bib_entry) :
  p ∈ od_set k v m → p = (k, v) ∨ p ∈ m.
Proof.
  induction m as [|[k' v'] m IH]; simpl.
  - intros ->%list_elem_of_singleton. by left.
  - case_decide; rewrite !elem_of_cons.
    + intros [?|?]; auto.
    + intros [?|?]; [auto|]. destruct IH; auto.
Qed.

Lemma od_set_NoDup (k : string) (v : bib_entry) (m : odict) :
  NoDup m.*1 → NoDup (od_set k v m).*1.
Proof.
  intros Hnd. destruct (od_get k m) as [v0|] eqn:Hk.
  - by rewrite (od_set_keys _ _ v0).
  - rewrite od_set_new by done. rewrite fmap_app. simpl.
    apply NoDup_app. split_and!; [done| |apply NoDup_singleton].
    intros x Hx ->%list_elem_of_singleton. by apply od_get_None in Hk.
Qed.

Lemma dict_by_total (key : bib_entry → result string)
    (existing : list bib_entry) :
  (∀ e, e ∈ existing → ∃ k, key e = Ok k) → ∃ m, dict_by key existing = Ok m.
Proof.
  intros Hkey. apply for_each_total. intros m e [k ->]%Hkey. simpl. eauto.
Qed.

Lemma dict_by_lookup_acc (key : bib_entry → result string)
    (tkey : bib_entry → string) (k : string) (l : list bib_entry)
    (acc m : odict) :
  (∀ e, e ∈ l → key e = Ok (tkey e)) →
  for_each (λ m e, k ← key e; Ok (od_set k e m)) acc l = Ok m →
  od_get k m = match last_with tkey k l with
               | Some e => Some e
               | None => od_get k acc
               end.
Proof.
  revert acc. induction l as [|e l IH]; intros acc Hkey; cbn [for_each].
  - by intros [= <-].
  - rewrite (Hkey e) by left. rewrite !result_bind_Ok.
    intros Hm. rewrite (IH _ (λ x Hx, Hkey x (list_elem_of_further _ _ _ Hx)) Hm).
    unfold last_with. rewrite filter_cons.
    destruct (decide (tkey e = k)) as [<-|Hne].
    + rewrite last_cons. destruct (last _); [done|]. apply od_get_set_eq.
    + destruct (last _); [done|]. by apply od_get_set_ne.
Qed.

Lemma dict_by_lookup (key : bib_entry → result string)
    (tkey : bib_entry → string) (k : string) (existing : list bib_entry)
    (m : odict) :
  (∀ e, e ∈ existing → key e = Ok (tkey e)) →
  dict_by key existing = Ok m →
  od_get k m = last_with tkey k existing.
Proof.
  intros Hkey Hm. rewrite (dict_by_lookup_acc key tkey k existing [] m Hkey Hm).
  by destruct (last_with _ _ _).
Qed.

Lemma last_with_elem (key : bib_entry → string) (k : string)
    (existing : list bib_entry) (e : bib_entry) :
  last_with key k existing = Some e → e ∈ existing ∧ key e = k.
Proof.
  unfold last_with. intros He%last_Some_elem_of.
  apply list_elem_of_filter in He as [? ?]. done.
Qed.

Lemma dict_by_title_text (existing : list bib_entry) (m : odict) :
  dict_by title_key existing = Ok m →
  ∀ e, e ∈ existing → e !! "title" ≠ Some VNone.
Proof.
  intros Hm e He.
  destruct (for_each_Ok_elem _ _ _ _ e Hm He) as (s & s' & Hs).
  destruct (title_key e) as [k|] eqn:Hk; [|done].
  by apply title_key_Ok in Hk.
Qed.

Lemma title_map_lookup (existing : list bib_entry) (m : odict) (k : string) :
  dict_by title_key existing = Ok m →
  od_get k m = last_with normTitle k existing.
Proof.
  intros Hm. apply (dict_by_lookup title_key); [|done].
  intros e He. apply title_key_text. by eapply dict_by_title_text.
Qed.

Lemma id_map_lookup (existing : list bib_entry) (m : odict) (k : string) :
  dict_by id_key existing = Ok m →
  od_get k m = last_with normId k existing.
Proof.
  apply (dict_by_lookup id_key). intros e _. unfold id_key.
  by rewrite normalize_id_normId.
Qed.

(** ** Merge Engine: the conflict rule *)

(** C1 (amended). For an incoming record with a non-empty title whose
    normalized title is in the mapping: with strictly more fields than the
    stored record it replaces the mapping entry in place, carrying the
    stored record's [ID] (its own when the stored record has none) and all
    its other fields, and [updated] grows by one; otherwise the state is
    left as it was. *)
Theorem merge_entry_conflict (entry_map : odict) (added updated : nat)
    (entry stored : bib_entry) (norm_title : string) :
  truthy (get entry "title" (VStr "")) = true →
  title_key entry = Ok norm_title →
  od_get norm_title entry_map = Some stored →
  let winner := <["ID" := get stored "ID" (get entry "ID" VNone)]> entry in
  (size stored < size entry →
     ∃ entry_map',
       merge_entry (entry_map, added, updated) entry
       = Ok (entry_map', added, S updated)
       ∧ od_get norm_title entry_map' = Some winner
       ∧ (∀ k, k ≠ norm_title → od_get k entry_map' = od_get k entry_map)
       ∧ entry_map'.*1 = entry_map.*1
       ∧ (∀ f, f ≠ "ID" → winner !! f = entry !! f)
       ∧ (∀ v, stored !! "ID" = Some v → winner !! "ID" = Some v))
  ∧ (size entry ≤ size stored →
       merge_entry (entry_map, added, updated) entry
       = Ok (entry_map, added, updated)).
Proof.
  intros Ht Hk Hs winner. unfold title_key in Hk.
  unfold merge_entry. rewrite Ht. simpl. rewrite Hk. simpl. rewrite Hs.
  split.
  - intros Hlt. apply Nat.ltb_lt in Hlt as ->.
    exists (od_set norm_title winner entry_map). split_and!.
    + done.
    + apply od_get_set_eq.
    + intros k Hne. by apply od_get_set_ne.
    + by apply od_set_keys with stored.
    + intros f Hf. unfold winner. by rewrite lookup_insert_ne.
    + intros v Hv. unfold winner, get. rewrite Hv. simpl.
      apply lookup_insert_eq.
  - intros Hle. apply Nat.ltb_ge in Hle as ->. done.
Qed.

Lemma merge_entry_conflict_witness :
  let stored : bib_entry :=
    {[ "ENTRYTYPE" := VStr "article"; "ID" := VStr "vaswani17";
       "title" := VStr "Attention Is All You Need" ]} in
  let entry : bib_entry :=
    {[ "ENTRYTYPE" := VStr "inproceedings"; "ID" := VStr "attn";
       "title" := VStr "Attention is all you need!"; "year" := VStr "2017";
       "author" := VStr "Vaswani" ]} in
  ∃ entry_map',
    merge_entry ([("attentionisallyouneed", stored)], 0, 0) entry
    = Ok (entry_map', 0, 1)
    ∧ od_get "attentionisallyouneed" entry_map'
      = Some (<["ID" := VStr "vaswani17"]> entry).
Proof.
  intros stored entry.
  destruct (merge_entry_conflict [("attentionisallyouneed", stored)] 0 0
              entry stored "attentionisallyouneed") as [Hwin _];
    [reflexivity|reflexivity|reflexivity|].
  assert (size stored < size entry) as Hlt by (vm_compute; lia).
  destruct (Hwin Hlt) as (m' & Hm & Hget & _).
  exists m'. split; [exact Hm|exact Hget].
Defined.

(** C1, as stated, fails on an incoming record without a title: its
    normalized title (the empty string) is in the mapping and it has
    strictly more fields than the stored record, yet the loop skips it. *)
Lemma merge_entry_conflict_untitled_counterexample :
  let stored : bib_entry :=
    {[ "ENTRYTYPE" := VStr "misc"; "ID" := VStr "foo" ]} in
  let entry : bib_entry :=
    {[ "ENTRYTYPE" := VStr "misc"; "ID" := VStr "bar";
       "author" := VStr "Knuth" ]} in
  dict_by title_key [stored] = Ok [("", stored)]
  ∧ title_key entry = Ok ""
  ∧ od_get "" [("", stored)] = Some stored
  ∧ size stored < size entry
  ∧ merge_entry ([("", stored)], 0, 0) entry = Ok ([("", stored)], 0, 0)
  ∧ merge_entries [stored] [entry] = Ok ([stored], 0, 0)
  ∧ merge_entries [stored] [entry]
    ≠ Ok ([<["ID" := VStr "foo"]> entry], 0, 1).
Proof.
  intros stored entry. split_and!; try reflexivity.
  - vm_compute. lia.
  - intros H. discriminate H.
Qed.

(** ** Merge Engine: invariants of the loop *)

Lemma size_insert_ge (e : bib_entry) (k : string) (v : pyval) :
  size e ≤ size (<[k := v]> e).
Proof.
  destruct (e !! k) eqn:Hk.
  - rewrite map_size_insert_Some; [lia|done].
  - rewrite map_size_insert_None; [lia|done].
Qed.

(** The loop body never raises. *)
Lemma merge_entry_total (st : odict * nat * nat) (entry : bib_entry) :
  ∃ st', merge_entry st entry = Ok st'.
Proof.
  destruct st as [[m a] u]. unfold merge_entry.
  destruct (truthy _) eqn:Ht; simpl; [|eauto].
  destruct (truthy_normalize _ Ht) as [k ->]. simpl.
  destruct (od_get k m); [destruct (_ <? _)|]; eauto.
Qed.

Lemma merge_entry_untitled (st : odict * nat * nat) (entry : bib_entry) :
  ¬ titled entry → merge_entry st entry = Ok st.
Proof.
  unfold titled. intros Ht. apply not_true_iff_false in Ht.
  destruct st as [[m a] u]. unfold merge_entry. by rewrite Ht.
Qed.

(** The three ways a titled record leaves the loop body. *)
Lemma merge_entry_cases (m m' : odict) (a a' u u' : nat) (entry : bib_entry) :
  titled entry →
  merge_entry (m, a, u) entry = Ok (m', a', u') →
  ∃ k, title_key entry = Ok k ∧
    ((od_get k m = None ∧ m' = od_set k entry m ∧ a' = S a ∧ u' = u)
     ∨ (∃ stored, od_get k m = Some stored ∧ size stored < size entry
          ∧ m' = od_set k (<["ID" := get stored "ID" (get entry "ID" VNone)]> entry) m
          ∧ a' = a ∧ u' = S u)
     ∨ (∃ stored, od_get k m = Some stored ∧ size entry ≤ size stored
          ∧ m' = m ∧ a' = a ∧ u' = u)).
Proof.
  unfold titled, merge_entry, title_key. intros Ht. rewrite Ht. simpl.
  destruct (truthy_normalize _ Ht) as [k Hk]. rewrite Hk. simpl.
  intros Hm. exists k. split; [done|].
  destruct (od_get k m) as [stored|] eqn:Hget.
  - right. destruct (size stored <? size entry) eqn:Hlt.
    + apply Nat.ltb_lt in Hlt. left. exists stored.
      injection Hm as <- <- <-. done.
    + apply Nat.ltb_ge in Hlt. right. exists stored.
      injection Hm as <- <- <-. done.
  - left. injection Hm as <- <- <-. done.
Qed.

Lemma od_wf_set (k : string) (v : bib_entry) (m : odict) :
  od_wf m → title_key v = Ok k → od_wf (od_set k v m).
Proof.
  intros [Hnd Hall] Hk. split; [by apply od_set_NoDup|].
  apply Forall_forall. intros p [->|Hp]%od_set_elem; [done|].
  rewrite Forall_forall in Hall. by apply Hall.
Qed.

Lemma merge_entry_wf (m m' : odict) (a a' u u' : nat) (entry : bib_entry) :
  od_wf m → merge_entry (m, a, u) entry = Ok (m', a', u') → od_wf m'.
Proof.
  intros Hwf Hm. destruct (decide (titled entry)) as [Ht|Ht].
  - destruct (merge_entry_cases _ _ _ _ _ _ _ Ht Hm)
      as (k & Hk & [(_ & -> & _)|[(s & _ & _ & -> & _)|(s & _ & _ & -> & _)]]).
    + by apply od_wf_set.
    + apply od_wf_set; [done|]. by rewrite title_key_insert_ID.
    + done.
  - rewrite merge_entry_untitled in Hm by done. by injection Hm as <- _ _.
Qed.

Lemma dict_by_acc_wf (existing : list bib_entry) (acc m : odict) :
  od_wf acc →
  for_each (λ m e, k ← title_key e; Ok (od_set k e m)) acc existing = Ok m →
  od_wf m.
Proof.
  intros Hacc. apply for_each_invariant; [|done].
  intros st e st' _ Hst. destruct (title_key e) as [k|] eqn:Hk; simpl; [|done].
  intros [= <-]. by apply od_wf_set.
Qed.

Lemma dict_by_wf (existing : list bib_entry) (m : odict) :
  dict_by title_key existing = Ok m → od_wf m.
Proof.
  apply dict_by_acc_wf. split; [apply NoDup_nil_2|apply Forall_nil_2].
Qed.

Lemma for_each_merge_wf (l : list bib_entry) (st st' : odict * nat * nat) :
  od_wf st.1.1 → for_each merge_entry st l = Ok st' → od_wf st'.1.1.
Proof.
  apply (for_each_invariant (λ st, od_wf st.1.1)).
  intros [[m a] u] e [[m' a'] u'] _; simpl. apply merge_entry_wf.
Qed.

(** Rebuilding the mapping from its own values gives it back. *)
Lemma dict_by_values_acc (m acc : odict) :
  od_wf (acc ++ m) →
  for_each (λ m e, k ← title_key e; Ok (od_set k e m)) acc m.*2
  = Ok (acc ++ m).
Proof.
  revert acc. induction m as [|[k v] m IH]; intros acc Hwf; simpl.
  - by rewrite app_nil_r.
  - assert (acc ++ (k, v) :: m = (acc ++ [(k, v)]) ++ m) as Heq
      by (by rewrite <-(assoc_L (++))).
    assert (title_key v = Ok k) as ->.
    { destruct Hwf as [_ Hall].
      apply Forall_app in Hall as [_ Hall]. by inversion Hall. }
    simpl. rewrite od_set_new.
    + rewrite Heq. apply IH. by rewrite <-Heq.
    + destruct Hwf as [Hnd _].
      apply od_get_None. rewrite fmap_app in Hnd. simpl in Hnd.
      apply NoDup_app in Hnd as (_ & Hdis & _).
      intros Hin. apply (Hdis k Hin). left.
Qed.

Lemma dict_by_values (m : odict) :
  od_wf m → dict_by title_key (od_values m) = Ok m.
Proof. intros Hwf. by apply (dict_by_values_acc m []). Qed.

Lemma merge_entry_covers_self (m m' : odict) (a a' u u' : nat) (entry : bib_entry) :
  merge_entry (m, a, u) entry = Ok (m', a', u') → covers m' entry.
Proof.
  intros Hm. destruct (decide (titled entry)) as [Ht|Ht].
  - right.
    destruct (merge_entry_cases _ _ _ _ _ _ _ Ht Hm)
      as (k & Hk & [(_ & -> & _)|[(s & _ & _ & -> & _)|(s & Hs & Hle & -> & _)]]);
      exists k.
    + eexists. split_and!; [done|apply od_get_set_eq|done].
    + eexists. split_and!; [done|apply od_get_set_eq|apply size_insert_ge].
    + by exists s.
  - left. by apply not_true_iff_false.
Qed.

Lemma covers_mono (m m' : odict) (a a' u u' : nat) (entry e0 : bib_entry) :
  covers m e0 → merge_entry (m, a, u) entry = Ok (m', a', u') → covers m' e0.
Proof.
  intros [Hc|(k0 & s0 & Hk0 & Hs0 & Hle0)] Hm; [by left|].
  destruct (decide (titled entry)) as [Ht|Ht].
  - destruct (merge_entry_cases _ _ _ _ _ _ _ Ht Hm)
      as (k & Hk & [(Hn & -> & _)|[(s & Hs & Hlt & -> & _)|(s & _ & _ & -> & _)]]).
    + right. exists k0, s0. split_and!; [done| |done].
      rewrite od_get_set_ne; [done|]. intros ->. congruence.
    + right. destruct (decide (k = k0)) as [->|Hne].
      * eexists k0, _. split_and!; [done|apply od_get_set_eq|].
        assert (s = s0) as -> by congruence.
        etrans; [|apply size_insert_ge]. lia.
      * exists k0, s0. by rewrite od_get_set_ne.
    + right. by exists k0, s0.
  - rewrite merge_entry_untitled in Hm by done.
    injection Hm as <- _ _. right. by exists k0, s0.
Qed.

Lemma for_each_keeps_covered (l : list bib_entry) (e : bib_entry)
    (st st' : odict * nat * nat) :
  covers st.1.1 e → for_each merge_entry st l = Ok st' → covers st'.1.1 e.
Proof.
  apply (for_each_invariant (λ st, covers st.1.1 e)).
  intros [[m2 a2] u2] y [[m3 a3] u3] _ Hc Hy. simpl in *.
  by eapply covers_mono.
Qed.

Lemma for_each_merge_covers (l : list bib_entry) (st st' : odict * nat * nat) :
  for_each merge_entry st l = Ok st' → ∀ e, e ∈ l → covers st'.1.1 e.
Proof.
  revert st. induction l as [|x l IH]; intros st; simpl.
  - intros _ e He. by apply elem_of_nil in He.
  - destruct (merge_entry st x) as [st1|] eqn:Hx; simpl; [|done].
    intros Hl e [->|He]%elem_of_cons; [|by eapply IH].
    destruct st as [[m a] u], st1 as [[m1 a1] u1].
    apply merge_entry_covers_self in Hx.
    by apply (for_each_keeps_covered l x (m1, a1, u1)).
Qed.

Lemma covers_noop (m : odict) (a u : nat) (entry : bib_entry) :
  covers m entry → merge_entry (m, a, u) entry = Ok (m, a, u).
Proof.
  intros [Hc|(k & s & Hk & Hs & Hle)]; unfold merge_entry, title_key in *.
  - by rewrite Hc.
  - destruct (truthy _); simpl; [|done]. rewrite Hk. simpl. rewrite Hs.
    by apply Nat.ltb_ge in Hle as ->.
Qed.

Lemma for_each_merge_noop (l : list bib_entry) (m : odict) (a u : nat) :
  (∀ e, e ∈ l → covers m e) → for_each merge_entry (m, a, u) l = Ok (m, a, u).
Proof.
  induction l as [|x l IH]; intros Hc; cbn [for_each]; [done|].
  rewrite covers_noop by (apply Hc; left). simpl.
  apply IH. intros e He. apply Hc. by right.
Qed.

Lemma merge_entries_inv (existing batch merged : list bib_entry) (a u : nat) :
  merge_entries existing batch = Ok (merged, a, u) →
  ∃ m0 m, dict_by title_key existing = Ok m0
          ∧ for_each merge_entry (m0, 0, 0) batch = Ok (m, a, u)
          ∧ merged = od_values m.
Proof.
  unfold merge_entries. destruct (dict_by _ _) as [m0|]; simpl; [|done].
  destruct (for_each _ _ _) as [[[m a'] u']|] eqn:Hf; simpl; [|done].
  intros H. injection H as ? ? ?. subst. by exists m0, m.
Qed.

Lemma merge_entries_total (existing batch : list bib_entry) :
  Forall text_title existing → ∃ r, merge_entries existing batch = Ok r.
Proof.
  intros Htext. rewrite Forall_forall in Htext. unfold merge_entries.
  destruct (dict_by_total title_key existing) as [m0 ->].
  { intros e He%Htext. rewrite title_key_text by done. eauto. }
  rewrite result_bind_Ok.
  destruct (for_each_total merge_entry batch (m0, 0, 0)) as [st ->];
    [|by eauto].
  intros s x _. apply merge_entry_total.
Qed.

Lemma for_each_merge_filter (l : list bib_entry) (st : odict * nat * nat) :
  for_each merge_entry st (filter titled l) = for_each merge_entry st l.
Proof.
  revert st. induction l as [|x l IH]; intros st; [done|].
  rewrite filter_cons. destruct (decide (titled x)) as [Ht|Ht]; cbn [for_each].
  - destruct (merge_entry st x); simpl; auto.
  - rewrite merge_entry_untitled by done. simpl. apply IH.
Qed.

Lemma for_each_merge_counts (l : list bib_entry) (m m' : odict) (a a' u u' : nat) :
  for_each merge_entry (m, a, u) l = Ok (m', a', u') →
  a' + u' ≤ a + u + length (filter titled l).
Proof.
  revert m a u. induction l as [|x l IH]; intros m a u; cbn [for_each].
  - intros [= _ <- <-]. simpl. lia.
  - destruct (merge_entry (m, a, u) x) as [[[m1 a1] u1]|] eqn:Hx; simpl; [|done].
    intros Hl%IH. rewrite filter_cons.
    destruct (decide (titled x)) as [Ht|Ht].
    + destruct (merge_entry_cases _ _ _ _ _ _ _ Ht Hx)
        as (k & _ & [(_ & _ & -> & ->)|[(s & _ & _ & _ & -> & ->)
                                        |(s & _ & _ & _ & -> & ->)]]);
        simpl; lia.
    + rewrite merge_entry_untitled in Hx by done.
      injection Hx as _ <- <-. lia.
Qed.

Lemma dict_by_from (existing : list bib_entry) (m : odict) :
  dict_by title_key existing = Ok m →
  Forall (λ p, p.2 ∈ existing ∨ titled p.2) m.
Proof.
  apply (for_each_invariant (λ m, Forall (λ p, p.2 ∈ existing ∨ titled p.2) m));
    [|apply Forall_nil_2].
  intros st e st' He Hst. destruct (title_key e) as [k|]; simpl; [|done].
  intros [= <-]. apply Forall_forall. intros p [->|Hp]%od_set_elem.
  - by left.
  - rewrite Forall_forall in Hst. by apply Hst.
Qed.

Lemma merge_entry_from (existing : list bib_entry) (m m' : odict)
    (a a' u u' : nat) (entry : bib_entry) :
  Forall (λ p, p.2 ∈ existing ∨ titled p.2) m →
  merge_entry (m, a, u) entry = Ok (m', a', u') →
  Forall (λ p, p.2 ∈ existing ∨ titled p.2) m'.
Proof.
  intros Hall Hm. destruct (decide (titled entry)) as [Ht|Ht].
  - destruct (merge_entry_cases _ _ _ _ _ _ _ Ht Hm)
      as (k & Hk & [(_ & -> & _)|[(s & _ & _ & -> & _)|(s & _ & _ & -> & _)]]);
      [| |done];
      apply Forall_forall; intros p [->|Hp]%od_set_elem;
      try (rewrite Forall_forall in Hall; by apply Hall).
    + by right.
    + right. unfold titled. simpl. by rewrite get_title_insert_ID.
  - rewrite merge_entry_untitled in Hm by done. by injection Hm as <- _ _.
Qed.

(** ** Merge Engine: the whole function *)

Section merge_bib_data_properties.
(** The properties hold whatever the two parser attempts answer. *)
Variable loads : string → option (list bib_entry).
Variable loads_with_parser : string → option (list bib_entry).

(** C7. When neither parser attempt succeeds, [merge_bib_data] returns the
    existing collection itself with both counts at zero. *)
Theorem merge_bib_data_parse_failure
    (existing_entries : list bib_entry) (new_bib_str : string) :
  loads new_bib_str = None →
  loads_with_parser new_bib_str = None →
  merge_bib_data loads loads_with_parser existing_entries new_bib_str
  = Ok (existing_entries, 0, 0).
Proof.
  intros H1 H2. unfold merge_bib_data, parse. by rewrite H1, H2.
Qed.

(** C2. For a batch that parsed, [merge_bib_data] returns a collection
    (whenever the existing titles are text), and the collection it returns
    holds no two records, at different positions, with the same normalized
    title; every title in it normalizes. *)
Theorem merge_bib_data_unique_titles
    (existing_entries : list bib_entry) (new_bib_str : string) :
  is_Some (parse loads loads_with_parser new_bib_str) →
  (Forall text_title existing_entries →
   ∃ r, merge_bib_data loads loads_with_parser existing_entries new_bib_str
        = Ok r)
  ∧ ∀ merged added updated,
      merge_bib_data loads loads_with_parser existing_entries new_bib_str
      = Ok (merged, added, updated) →
      (∀ r, r ∈ merged → ∃ k, title_key r = Ok k)
      ∧ (∀ i j r1 r2,
           merged !! i = Some r1 → merged !! j = Some r2 →
           title_key r1 = title_key r2 → i = j).
Proof.
  intros [batch Hp]. unfold merge_bib_data. rewrite Hp. split.
  { apply merge_entries_total. }
  intros merged added updated (m0 & m & Hm0 & Hm & ->)%merge_entries_inv.
  assert (od_wf m) as [Hnd Hall].
  { apply (for_each_merge_wf batch (m0, 0, 0) (m, added, updated));
      [by apply dict_by_wf in Hm0|done]. }
  unfold od_values. split.
  - intros r Hr. apply list_elem_of_fmap in Hr as ([k r'] & -> & Hin).
    exists k. rewrite Forall_forall in Hall. apply (Hall _ Hin).
  - intros i j r1 r2 Hi Hj Heq.
    apply list_lookup_fmap_Some in Hi as ([k1 r1'] & -> & Hi).
    apply list_lookup_fmap_Some in Hj as ([k2 r2'] & -> & Hj).
    pose proof (Forall_lookup_1 _ _ _ _ Hall Hi) as H1.
    pose proof (Forall_lookup_1 _ _ _ _ Hall Hj) as H2.
    simpl in *. rewrite H1, H2 in Heq. injection Heq as ->.
    apply (NoDup_lookup m.*1 i j k2 Hnd);
      rewrite list_lookup_fmap; [by rewrite Hi|by rewrite Hj].
Qed.

(** C3. Merging the same batch text into the collection a merge returned
    adds nothing, updates nothing and returns that collection again. *)
Theorem merge_bib_data_idempotent
    (existing_entries merged : list bib_entry) (new_bib_str : string)
    (added updated : nat) :
  merge_bib_data loads loads_with_parser existing_entries new_bib_str
  = Ok (merged, added, updated) →
  merge_bib_data loads loads_with_parser merged new_bib_str
  = Ok (merged, 0, 0).
Proof.
  unfold merge_bib_data.
  destruct (parse _ _ _) as [batch|]; [|by intros [= <- _ _]].
  intros (m0 & m & Hm0 & Hm & ->)%merge_entries_inv.
  assert (od_wf m) as Hwf.
  { apply (for_each_merge_wf batch (m0, 0, 0) (m, added, updated));
      [by apply dict_by_wf in Hm0|done]. }
  unfold merge_entries. rewrite dict_by_values by done. simpl.
  rewrite for_each_merge_noop; [done|].
  apply (for_each_merge_covers _ _ _ Hm).
Qed.

(** C8. A record of the batch whose title is absent or empty is skipped:
    the merge returns what it returns for the batch without such records,
    so they add to neither count, and a record without a title in the
    merged collection is one the existing collection already held. *)
Theorem merge_bib_data_drops_untitled
    (existing_entries batch : list bib_entry) (new_bib_str : string) :
  parse loads loads_with_parser new_bib_str = Some batch →
  merge_bib_data loads loads_with_parser existing_entries new_bib_str
  = merge_entries existing_entries (filter titled batch)
  ∧ ∀ merged added updated,
      merge_bib_data loads loads_with_parser existing_entries new_bib_str
      = Ok (merged, added, updated) →
      (∀ r, r ∈ merged → ¬ titled r → r ∈ existing_entries)
      ∧ added + updated ≤ length (filter titled batch).
Proof.
  intros Hp. unfold merge_bib_data. rewrite Hp. split.
  - unfold merge_entries. destruct (dict_by _ _); simpl; [|done].
    by rewrite for_each_merge_filter.
  - intros merged a u (m0 & m & Hm0 & Hm & ->)%merge_entries_inv. split.
    + assert (Forall (λ p, p.2 ∈ existing_entries ∨ titled p.2) m) as Hall.
      { revert Hm. generalize (dict_by_from _ _ Hm0).
        change m0 with (m0, 0, 0).1.1 at 1. change m with (m, a, u).1.1 at 2.
        generalize (m0, 0, 0) (m, a, u).
        apply (for_each_invariant
                 (λ st, Forall (λ p, p.2 ∈ existing_entries ∨ titled p.2) st.1.1)).
        intros [[m1 a1] u1] e [[m2 a2] u2] _. apply merge_entry_from. }
      intros r Hr Hnt. apply list_elem_of_fmap in Hr as (p & -> & Hp').
      rewrite Forall_forall in Hall. by destruct (Hall _ Hp').
    + by apply for_each_merge_counts in Hm.
Qed.

End merge_bib_data_properties.

Example merge_bib_data_sample :
  merge_bib_data (loads_const [new_deep; new_other]) loads_fail [lib_deep] "@book{...}"
  = Ok ([<["ID" := VStr "goodfellow16"]> new_deep; new_other], 1, 1).
Proof. reflexivity. Qed.

Lemma merge_bib_data_parse_failure_witness :
  merge_bib_data loads_fail loads_fail [lib_deep] "@article{"
  = Ok ([lib_deep], 0, 0).
Proof.
  apply (merge_bib_data_parse_failure loads_fail loads_fail); reflexivity.
Defined.

Lemma merge_bib_data_unique_titles_witness :
  (∀ r, r ∈ [<["ID" := VStr "goodfellow16"]> new_deep; new_other] →
        ∃ k, title_key r = Ok k)
  ∧ (∀ i j r1 r2,
       [<["ID" := VStr "goodfellow16"]> new_deep; new_other] !! i = Some r1 →
       [<["ID" := VStr "goodfellow16"]> new_deep; new_other] !! j = Some r2 →
       title_key r1 = title_key r2 → i = j).
Proof.
  assert (is_Some (parse (loads_const [new_deep; new_other]) loads_fail
                     "@book{...}")) as Hparsed by (eexists; reflexivity).
  apply (proj2 (merge_bib_data_unique_titles
                  (loads_const [new_deep; new_other]) loads_fail [lib_deep]
                  "@book{...}" Hparsed) _ 1 1).
  reflexivity.
Defined.

Lemma merge_bib_data_idempotent_witness :
  merge_bib_data (loads_const [new_deep; new_other]) loads_fail
    [<["ID" := VStr "goodfellow16"]> new_deep; new_other] "@book{...}"
  = Ok ([<["ID" := VStr "goodfellow16"]> new_deep; new_other], 0, 0).
Proof.
  apply (merge_bib_data_idempotent (loads_const [new_deep; new_other])
           loads_fail [lib_deep] _ "@book{...}" 1 1).
  reflexivity.
Defined.

Lemma merge_bib_data_drops_untitled_witness :
  merge_bib_data (loads_const [new_untitled; new_deep; new_untitled; new_other])
    loads_fail [lib_deep] "@misc{...}"
  = merge_entries [lib_deep] [new_deep; new_other].
Proof.
  apply (merge_bib_data_drops_untitled
           (loads_const [new_untitled; new_deep; new_untitled; new_other])
           loads_fail [lib_deep]
           [new_untitled; new_deep; new_untitled; new_other] "@misc{...}").
  reflexivity.
Defined.

(** ** Exact-Duplicate Filter *)

Lemma entry_key_text (e : bib_entry) :
  e !! "title" ≠ Some VNone → entry_key e = Ok (pair_of e).
Proof.
  intros He. unfold entry_key. fold (title_key e).
  rewrite title_key_text by done. simpl. by rewrite normalize_id_normId.
Qed.

Lemma entry_key_None (e : bib_entry) :
  e !! "title" = Some VNone → entry_key e = Raise AttributeError.
Proof.
  intros He. unfold entry_key. fold (title_key e).
  by rewrite title_key_None.
Qed.

Lemma keep_unseen_positions (earlier l : list bib_entry) :
  keep_unseen earlier l
  = omap (λ p : nat * bib_entry,
            if decide (pair_of p.2 ∈ pair_of <$> take p.1 (earlier ++ l))
            then None else Some p.2)
         (imap (λ i e, (length earlier + i, e)) l).
Proof.
  revert earlier. induction l as [|e l IH]; intros earlier; [done|].
  simpl. rewrite Nat.add_0_r, take_app_length.
  rewrite IH. rewrite <-(assoc_L (++)). simpl.
  assert (imap ((λ i e0, (length earlier + i, e0)) ∘ S) l
          = imap (λ i e0, (length (earlier ++ [e]) + i, e0)) l) as ->.
  { apply imap_ext. intros i x _. simpl. rewrite length_app. simpl.
    f_equal. lia. }
  by destruct (decide _).
Qed.

Lemma exact_duplicate_filter_keep_unseen (entries : list bib_entry) :
  exact_duplicate_filter entries = keep_unseen [] entries.
Proof. by rewrite keep_unseen_positions. Qed.

Lemma keep_unseen_sublist (earlier l : list bib_entry) :
  sublist (keep_unseen earlier l) l.
Proof.
  revert earlier. induction l as [|e l IH]; intros earlier; simpl; [done|].
  destruct (decide _); simpl.
  - by apply sublist_cons.
  - by apply sublist_skip.
Qed.

Lemma keep_unseen_fresh (earlier l : list bib_entry) (x : bib_entry) :
  x ∈ keep_unseen earlier l → pair_of x ∉ pair_of <$> earlier.
Proof.
  revert earlier. induction l as [|e l IH]; intros earlier; simpl.
  - by intros ?%elem_of_nil.
  - intros [Hx|Hx]%elem_of_app.
    + destruct (decide _) as [|Hn]; [by apply elem_of_nil in Hx|].
      by apply list_elem_of_singleton in Hx as ->.
    + apply IH in Hx. intros Hin. apply Hx.
      rewrite fmap_app. apply elem_of_app. by left.
Qed.

Lemma keep_unseen_NoDup (earlier l : list bib_entry) :
  NoDup (pair_of <$> keep_unseen earlier l).
Proof.
  revert earlier. induction l as [|e l IH]; intros earlier; simpl.
  - apply NoDup_nil_2.
  - rewrite fmap_app. apply NoDup_app. split_and!; [|
      |apply IH].
    + destruct (decide _); [apply NoDup_nil_2|apply NoDup_singleton].
    + intros k Hk (x & -> & Hx%keep_unseen_fresh)%list_elem_of_fmap.
      apply Hx. rewrite fmap_app. apply elem_of_app. right.
      destruct (decide _); [by apply elem_of_nil in Hk|].
      simpl in *. by apply list_elem_of_singleton in Hk as ->; left.
Qed.

Lemma dedup_step_None (st : gset (string * string) * list bib_entry)
    (e : bib_entry) :
  e !! "title" = Some VNone → dedup_step st e = Raise AttributeError.
Proof.
  intros He. destruct st. unfold dedup_step. by rewrite entry_key_None.
Qed.

Lemma dedup_step_new (seen : gset (string * string)) (unique : list bib_entry)
    (e : bib_entry) :
  e !! "title" ≠ Some VNone → pair_of e ∉ seen →
  dedup_step (seen, unique) e = Ok ({[pair_of e]} ∪ seen, unique ++ [e]).
Proof.
  intros He Hn. unfold dedup_step. rewrite entry_key_text by done. simpl.
  by rewrite decide_True.
Qed.

Lemma dedup_step_seen (seen : gset (string * string)) (unique : list bib_entry)
    (e : bib_entry) :
  e !! "title" ≠ Some VNone → pair_of e ∈ seen →
  dedup_step (seen, unique) e = Ok (seen, unique).
Proof.
  intros He Hn. unfold dedup_step. rewrite entry_key_text by done. simpl.
  rewrite decide_False; [done|]. by intros [].
Qed.

Lemma remove_exact_duplicates_loop (l earlier unique : list bib_entry)
    (seen : gset (string * string)) :
  (∀ k, k ∈ seen ↔ k ∈ pair_of <$> earlier) →
  match for_each dedup_step (seen, unique) l with
  | Ok st => st.2 = unique ++ keep_unseen earlier l
  | Raise e => e = AttributeError ∧ Exists (λ x, x !! "title" = Some VNone) l
  end.
Proof.
  revert earlier unique seen.
  induction l as [|e l IH]; intros earlier unique seen Hseen; cbn [for_each].
  - simpl. by rewrite app_nil_r.
  - destruct (decide (e !! "title" = Some VNone)) as [He|He].
    { rewrite dedup_step_None by done. simpl. split; [done|]. by left. }
    destruct (decide (pair_of e ∈ seen)) as [Hn|Hn].
    + rewrite dedup_step_seen by done. simpl.
      specialize (IH (earlier ++ [e]) unique seen).
      destruct (for_each _ _ l) as [st|ex].
      * rewrite IH.
        -- by rewrite decide_True by (by rewrite <-Hseen).
        -- intros k. rewrite fmap_app, elem_of_app, Hseen.
           simpl. rewrite list_elem_of_singleton. split; [tauto|].
           intros [?| ->]; [done|]. by apply Hseen.
      * destruct IH as [-> Hex].
        -- intros k. rewrite fmap_app, elem_of_app, Hseen.
           simpl. rewrite list_elem_of_singleton. split; [tauto|].
           intros [?| ->]; [done|]. by apply Hseen.
        -- split; [done|]. by right.
    + rewrite dedup_step_new by done. simpl.
      specialize (IH (earlier ++ [e]) (unique ++ [e]) ({[pair_of e]} ∪ seen)).
      destruct (for_each _ _ l) as [st|ex].
      * rewrite IH.
        -- rewrite decide_False by (by rewrite <-Hseen).
           by rewrite <-(assoc_L (++)).
        -- intros k. rewrite fmap_app, elem_of_app, elem_of_union, Hseen.
           simpl. rewrite list_elem_of_singleton, elem_of_singleton. tauto.
      * destruct IH as [-> Hex].
        -- intros k. rewrite fmap_app, elem_of_app, elem_of_union, Hseen.
           simpl. rewrite list_elem_of_singleton, elem_of_singleton. tauto.
        -- split; [done|]. by right.
Qed.

(** C5. [remove_exact_duplicates] returns the batch with exactly those
    positions removed whose (normalized title, normalized ID) pair is the
    pair of an earlier record, in the original order (it can only fail on a
    record whose title is [None]); the pairs of the records kept are
    pairwise distinct, and of two records with neither title nor [ID] the
    second one goes. *)
Theorem remove_exact_duplicates_spec (entries : list bib_entry) :
  match remove_exact_duplicates entries with
  | Ok unique_entries => unique_entries = exact_duplicate_filter entries
  | Raise e =>
      e = AttributeError
      ∧ Exists (λ entry, entry !! "title" = Some VNone) entries
  end
  ∧ sublist (exact_duplicate_filter entries) entries
  ∧ NoDup (pair_of <$> exact_duplicate_filter entries)
  ∧ (∀ e1 e2 : bib_entry,
       blank e1 → blank e2 →
       pair_of e1 = ("", "") ∧ pair_of e2 = ("", "")
       ∧ remove_exact_duplicates [e1; e2] = Ok [e1]).
Proof.
  split_and!.
  - unfold remove_exact_duplicates.
    pose proof (remove_exact_duplicates_loop entries [] [] ∅) as Hloop.
    destruct (for_each _ _ entries) as [st|ex]; simpl.
    + rewrite exact_duplicate_filter_keep_unseen. apply Hloop.
      intros k. simpl. by rewrite elem_of_nil, elem_of_empty.
    + apply Hloop. intros k. simpl. by rewrite elem_of_nil, elem_of_empty.
  - rewrite exact_duplicate_filter_keep_unseen. apply keep_unseen_sublist.
  - rewrite exact_duplicate_filter_keep_unseen. apply keep_unseen_NoDup.
  - intros e1 e2 [Ht1 Hi1] [Ht2 Hi2].
    assert (pair_of e1 = ("", "")) as Hp1.
    { unfold pair_of, normTitle, normId. by rewrite Ht1, Hi1. }
    assert (pair_of e2 = ("", "")) as Hp2.
    { unfold pair_of, normTitle, normId. by rewrite Ht2, Hi2. }
    split_and!; [done..|].
    assert (∀ e, blank e → e !! "title" ≠ Some VNone) as Htext.
    { intros e [Ht _] He. unfold get in Ht. by rewrite He in Ht. }
    unfold remove_exact_duplicates. cbn [for_each].
    rewrite dedup_step_new; [|by apply Htext|apply not_elem_of_empty].
    rewrite result_bind_Ok, dedup_step_seen; [done|by apply Htext|].
    rewrite Hp1, Hp2. apply elem_of_union_l. by apply elem_of_singleton.
Qed.

Example remove_exact_duplicates_sample :
  remove_exact_duplicates [dup_x1; dup_x1; dup_x2] = Ok [dup_x1; dup_x2].
Proof. reflexivity. Qed.

Lemma remove_exact_duplicates_spec_witness :
  remove_exact_duplicates
    [ {[ "ENTRYTYPE" := VStr "misc" ]};
      {[ "ENTRYTYPE" := VStr "book"; "title" := VStr ""; "ID" := VStr "" ]} ]
  = Ok [ {[ "ENTRYTYPE" := VStr "misc" ]} ].
Proof.
  apply (remove_exact_duplicates_spec []); split; reflexivity.
Defined.

(** ** Similarity Grouper: the anchor scan *)

Lemma pending_cons_in (P : gset nat) (j : nat) (e : bib_entry)
    (il : list (nat * bib_entry)) :
  j ∈ P → pending P ((j, e) :: il) = pending P il.
Proof.
  intros Hj. unfold pending. rewrite filter_cons_False; [done|].
  simpl. by intros [].
Qed.

Lemma pending_cons_notin (P : gset nat) (j : nat) (e : bib_entry)
    (il : list (nat * bib_entry)) :
  j ∉ P → pending P ((j, e) :: il) = e :: pending P il.
Proof. intros Hj. unfold pending. by rewrite filter_cons_True. Qed.

Lemma pending_fresh (P : gset nat) (j : nat) (il : list (nat * bib_entry)) :
  j ∉ il.*1 → pending ({[j]} ∪ P) il = pending P il.
Proof.
  intros Hj. unfold pending. f_equal.
  induction il as [|[k e] il IH]; [done|].
  simpl in Hj. apply not_elem_of_cons in Hj as [Hne Hj].
  rewrite !filter_cons. simpl. rewrite IH by done.
  destruct (decide (k ∉ {[j]} ∪ P)) as [Hk|Hk], (decide (k ∉ P)) as [Hk'|Hk'];
    try done; exfalso.
  - apply Hk'. intros Hin. apply Hk. by apply elem_of_union_r.
  - apply Hk. intros [Hin%elem_of_singleton|Hin]%elem_of_union; by auto.
Qed.

Lemma pending_empty (il : list (nat * bib_entry)) : pending ∅ il = il.*2.
Proof.
  unfold pending. f_equal. induction il as [|p il IH]; [done|].
  rewrite filter_cons_True; [by rewrite IH|apply not_elem_of_empty].
Qed.

Lemma inner_step_skip (title1 id1 : string) (g : list bib_entry)
    (P : gset nat) (j : nat) (e : bib_entry) :
  j ∈ P → inner_step title1 id1 (g, P) (j, e) = Ok (g, P).
Proof. intros Hj. unfold inner_step. by rewrite decide_True. Qed.

Lemma inner_step_None (title1 id1 : string) (g : list bib_entry)
    (P : gset nat) (j : nat) (e : bib_entry) :
  j ∉ P → e !! "title" = Some VNone →
  inner_step title1 id1 (g, P) (j, e) = Raise AttributeError.
Proof.
  intros Hj He. unfold inner_step. rewrite decide_False by done.
  fold (title_key e). by rewrite title_key_None.
Qed.

Lemma inner_step_text (r : bib_entry) (g : list bib_entry)
    (P : gset nat) (j : nat) (e : bib_entry) :
  j ∉ P → e !! "title" ≠ Some VNone →
  inner_step (normTitle r) (normId r) (g, P) (j, e)
  = if decide (similar r e) then Ok (g ++ [e], {[j]} ∪ P) else Ok (g, P).
Proof.
  intros Hj He. unfold inner_step. rewrite decide_False by done.
  fold (title_key e). rewrite title_key_text by done. simpl.
  rewrite normalize_id_normId. unfold similar.
  destruct (decide (normId r = normId e ∨ normTitle r = normTitle e))
    as [Hs|Hs].
  - destruct Hs as [Hs|Hs].
    + by rewrite (bool_decide_eq_true_2 _ Hs).
    + rewrite (bool_decide_eq_true_2 _ Hs). by rewrite orb_true_r.
  - rewrite !bool_decide_eq_false_2; [done|..]; intros ?; apply Hs; auto.
Qed.

Lemma inner_loop_spec (r : bib_entry) (il : list (nat * bib_entry))
    (g g' : list bib_entry) (P P' : gset nat) :
  NoDup il.*1 →
  for_each (inner_step (normTitle r) (normId r)) (g, P) il = Ok (g', P') →
  g' = g ++ filter (similar r) (pending P il)
  ∧ pending P' il = filter (λ x, ¬ similar r x) (pending P il)
  ∧ P ⊆ P'
  ∧ (∀ k, k ∈ P' → k ∈ P ∨ k ∈ il.*1).
Proof.
  revert g P. induction il as [|[j e] il IH]; intros g P Hnd; cbn [for_each].
  - intros [= <- <-]. unfold pending. simpl. rewrite app_nil_r.
    split_and!; [done..|by left].
  - simpl in Hnd. apply NoDup_cons in Hnd as [Hj Hnd].
    destruct (decide (j ∈ P)) as [HjP|HjP].
    { rewrite inner_step_skip by done. rewrite result_bind_Ok.
      intros (-> & Hpend & Hsub & Hbound)%IH; [|done].
      rewrite !pending_cons_in by (by auto). split_and!; [done..|].
      intros k [?|?]%Hbound; [by left|right; by right]. }
    destruct (decide (e !! "title" = Some VNone)) as [He|He].
    { by rewrite inner_step_None. }
    rewrite inner_step_text by done.
    destruct (decide (similar r e)) as [Hs|Hs]; rewrite result_bind_Ok.
    + intros (-> & Hpend & Hsub & Hbound)%IH; [|done].
      rewrite pending_fresh in * by done.
      rewrite (pending_cons_notin P) by done.
      rewrite pending_cons_in
        by (apply Hsub, elem_of_union_l; by apply elem_of_singleton).
      rewrite filter_cons_True by done.
      rewrite filter_cons_False by (by intros []).
      split_and!.
      * by rewrite <-(assoc_L (++)).
      * done.
      * intros k Hk. by apply Hsub, elem_of_union_r.
      * intros k [[->%elem_of_singleton|?]%elem_of_union|?]%Hbound.
        -- right. left.
        -- by left.
        -- right. by right.
    + intros (-> & Hpend & Hsub & Hbound)%IH; [|done].
      assert (j ∉ P') as HjP'.
      { intros [?|?]%Hbound; by auto. }
      rewrite !pending_cons_notin by done.
      rewrite filter_cons_False by done.
      rewrite filter_cons_True by done.
      split_and!; [done|by rewrite Hpend|done|].
      intros k [?|?]%Hbound; [by left|right; by right].
Qed.

Lemma found_with_Ok (m : odict) (k field : string) (v : pyval) (b : bool) :
  found_with m k field v = Ok b →
  b = match od_get k m with
      | Some e => bool_decide (e !! field = Some v)
      | None => false
      end.
Proof.
  unfold found_with, getitem. destruct (od_get k m) as [e|]; [|by intros [= <-]].
  destruct (e !! field) as [x|]; simpl; [|done]. intros [= <-].
  destruct (decide (x = v)) as [->|Hne].
  - by rewrite !bool_decide_eq_true_2.
  - rewrite !bool_decide_eq_false_2; [done|congruence|done].
Qed.

Lemma exact_match_Ok (existing : list bib_entry) (tmap imap : odict)
    (r : bib_entry) (b : bool) :
  dict_by title_key existing = Ok tmap →
  dict_by id_key existing = Ok imap →
  exact_match tmap imap (normTitle r) (normId r) r = Ok b →
  b = reconciled_with_last existing r.
Proof.
  intros Ht Hi. unfold exact_match, reconciled_with_last.
  rewrite <-(title_map_lookup existing tmap) by done.
  rewrite <-(id_map_lookup existing imap) by done.
  destruct (found_with tmap _ _ _) as [b1|] eqn:H1; simpl; [|done].
  apply found_with_Ok in H1 as <-.
  destruct b1; [by intros [= <-]|].
  by intros <-%found_with_Ok.
Qed.

Lemma outer_step_skip (tmap imap : odict) (entries : list bib_entry)
    (groups : list (list bib_entry)) (P : gset nat) (i : nat) (e : bib_entry) :
  i ∈ P → outer_step tmap imap entries (groups, P) (i, e) = Ok (groups, P).
Proof. intros Hi. unfold outer_step. by rewrite decide_True. Qed.

Lemma outer_step_None (tmap imap : odict) (entries : list bib_entry)
    (groups : list (list bib_entry)) (P : gset nat) (i : nat) (e : bib_entry) :
  i ∉ P → e !! "title" = Some VNone →
  outer_step tmap imap entries (groups, P) (i, e) = Raise AttributeError.
Proof.
  intros Hi He. unfold outer_step. rewrite decide_False by done.
  fold (title_key e). by rewrite title_key_None.
Qed.

Lemma outer_step_text (tmap imap : odict) (entries : list bib_entry)
    (groups : list (list bib_entry)) (P : gset nat) (i : nat) (e : bib_entry) :
  i ∉ P → e !! "title" ≠ Some VNone →
  outer_step tmap imap entries (groups, P) (i, e)
  = inner ← for_each (inner_step (normTitle e) (normId e))
              ([e], {[i]} ∪ P)
              (enumerate_from (i + 1) (drop (i + 1) entries));
    skip ← exact_match tmap imap (normTitle e) (normId e) e;
    if skip : bool then Ok (groups, inner.2)
    else if (1 <? length inner.1)%nat
         then Ok (groups ++ [inner.1], inner.2)
         else Ok (groups, inner.2).
Proof.
  intros Hi He. unfold outer_step. rewrite decide_False by done.
  fold (title_key e). rewrite title_key_text by done.
  by rewrite result_bind_Ok, normalize_id_normId.
Qed.

Lemma outer_loop_spec (existing entries : list bib_entry) (tmap imap : odict) :
  dict_by title_key existing = Ok tmap →
  dict_by id_key existing = Ok imap →
  ∀ (l : list bib_entry) (i : nat) (groups groups' : list (list bib_entry))
    (P P' : gset nat),
    drop i entries = l →
    for_each (outer_step tmap imap entries) (groups, P) (enumerate_from i l)
    = Ok (groups', P') →
    groups' = groups ++ anchor_groups (reconciled_with_last existing)
                          (pending P (enumerate_from i l)).
Proof.
  intros Ht Hi. induction l as [|e l IH]; intros i groups groups' P P' Hd;
    cbn [enumerate_from for_each].
  - intros [= <- <-]. unfold pending. simpl. simp anchor_groups.
    by rewrite app_nil_r.
  - pose proof (drop_cons_inv _ _ _ _ Hd) as Hd'.
    destruct (decide (i ∈ P)) as [HiP|HiP].
    { rewrite outer_step_skip, result_bind_Ok by done.
      rewrite pending_cons_in by done.
      apply IH. by rewrite <-Nat.add_1_r. }
    destruct (decide (e !! "title" = Some VNone)) as [He|He].
    { by rewrite outer_step_None. }
    rewrite outer_step_text by done. rewrite Hd', Nat.add_1_r.
    destruct (for_each (inner_step _ _) _ _) as [[g P1]|] eqn:Hin; [|done].
    rewrite result_bind_Ok.
    apply inner_loop_spec in Hin as (-> & Hpend & _ & _);
      [|apply enumerate_from_NoDup].
    rewrite pending_fresh in Hpend by apply enumerate_from_fresh.
    destruct (exact_match _ _ _ _ _) as [skip|] eqn:Hskip; [|done].
    rewrite result_bind_Ok.
    apply (exact_match_Ok existing) in Hskip as ->; [|done..].
    rewrite pending_fresh by apply enumerate_from_fresh.
    rewrite pending_cons_notin by done. simp anchor_groups.
    cbn [fst snd]. intros Hrest.
    destruct (reconciled_with_last existing e).
    + apply IH in Hrest; [|by rewrite <-Nat.add_1_r].
      by rewrite Hrest, Hpend.
    + destruct (1 <? length _)%nat.
      * apply IH in Hrest; [|by rewrite <-Nat.add_1_r].
        rewrite Hrest, Hpend. by rewrite <-(assoc_L (++)).
      * apply IH in Hrest; [|by rewrite <-Nat.add_1_r].
        by rewrite Hrest, Hpend.
Qed.

Lemma anchor_groups_sizes (reconciled : bib_entry → bool)
    (batch : list bib_entry) :
  Forall (λ g, 2 ≤ length g) (anchor_groups reconciled batch).
Proof.
  funelim (anchor_groups reconciled batch); simp anchor_groups; [done|].
  apply Forall_app. split; [|done].
  destruct (reconciled r); [done|].
  destruct (1 <? _)%nat eqn:Hlen; [|done].
  apply Nat.ltb_lt in Hlen. by apply Forall_singleton.
Qed.

(** C4 (amended). Whenever [find_similar_entries] returns, it returns the
    groups of the anchor scan over the batch, each of size at least two,
    a group being discarded when the last existing record with the anchor's
    normalized title has the anchor's raw [ID], or the last existing record
    with the anchor's normalized [ID] has the anchor's raw title. *)
Theorem find_similar_entries_anchor_scan
    (entries existing_entries : list bib_entry)
    (similar_groups : list (list bib_entry)) :
  find_similar_entries entries existing_entries = Ok similar_groups →
  similar_groups
  = anchor_groups (reconciled_with_last existing_entries) entries
  ∧ Forall (λ g, 2 ≤ length g) similar_groups.
Proof.
  unfold find_similar_entries.
  destruct (dict_by title_key _) as [tmap|] eqn:Ht; [|done].
  destruct (dict_by id_key _) as [imap|] eqn:Hi; [|done].
  rewrite !result_bind_Ok.
  destruct (for_each _ _ _) as [[groups P]|] eqn:Hloop; [|done].
  rewrite result_bind_Ok. intros [= <-].
  apply (outer_loop_spec existing_entries entries tmap imap Ht Hi entries 0)
    in Hloop; [|done].
  rewrite pending_empty, enumerate_from_snd in Hloop. simpl in Hloop.
  subst groups. split; [done|]. apply anchor_groups_sizes.
Qed.

Example find_similar_entries_sample :
  find_similar_entries [new_dl_a; new_dl_b; new_c] []
  = Ok [[new_dl_a; new_dl_b]].
Proof. reflexivity. Qed.

Lemma find_similar_entries_anchor_scan_witness :
  [[new_A_X; new_a_y]]
  = anchor_groups (reconciled_with_last [lib_A_x; lib_B_X]) [new_A_X; new_a_y].
Proof.
  apply (find_similar_entries_anchor_scan [new_A_X; new_a_y]
           [lib_A_x; lib_B_X] [[new_A_X; new_a_y]]).
  reflexivity.
Defined.

(** C4, as stated, fails when two existing records share a normalized [ID]:
    the batch below is free of exact duplicates, the existing record
    [lib_A_x] has the anchor's normalized [ID] and its raw title, so the
    rule as stated discards the group, yet [find_similar_entries] looks
    only at [lib_B_X] and returns the group. *)
Lemma find_similar_entries_exclusion_counterexample :
  remove_exact_duplicates [new_A_X; new_a_y] = Ok [new_A_X; new_a_y]
  ∧ lib_A_x ∈ [lib_A_x; lib_B_X]
  ∧ normId lib_A_x = normId new_A_X
  ∧ lib_A_x !! "title" = Some (get new_A_X "title" (VStr ""))
  ∧ anchor_groups (reconciled_with_some [lib_A_x; lib_B_X]) [new_A_X; new_a_y]
    = []
  ∧ find_similar_entries [new_A_X; new_a_y] [lib_A_x; lib_B_X]
    = Ok [[new_A_X; new_a_y]]
  ∧ find_similar_entries [new_A_X; new_a_y] [lib_A_x; lib_B_X]
    ≠ Ok (anchor_groups (reconciled_with_some [lib_A_x; lib_B_X])
            [new_A_X; new_a_y]).
Proof.
  split_and!; try reflexivity.
  - left.
  - intros H. discriminate H.
Qed.

(** The literal reading of the exclusion rule and the one on last records
    agree on a collection whose normalized titles and normalized [ID]s are
    pairwise distinct. *)
Lemma last_with_unique (key : bib_entry → string) (existing : list bib_entry)
    (e : bib_entry) :
  NoDup (key <$> existing) → e ∈ existing →
  last_with key (key e) existing = Some e.
Proof.
  unfold last_with. induction existing as [|x l IH]; simpl.
  - by intros _ ?%elem_of_nil.
  - intros [Hx Hnd]%NoDup_cons [->|He]%elem_of_cons.
    + rewrite filter_cons_True by done. rewrite last_cons.
      destruct (last _) as [y|] eqn:Hy; [|done].
      apply last_Some_elem_of, list_elem_of_filter in Hy as [Hk Hy].
      destruct Hx. rewrite <-Hk. by apply list_elem_of_fmap_2.
    + rewrite filter_cons_False; [by apply IH|].
      intros Hk. apply Hx. rewrite Hk. by apply list_elem_of_fmap_2.
Qed.

Lemma last_with_Exists (key : bib_entry → string) (existing : list bib_entry)
    (k : string) (Q : bib_entry → Prop) `{!∀ e, Decision (Q e)} :
  NoDup (key <$> existing) →
  match last_with key k existing with
  | Some e => bool_decide (Q e)
  | None => false
  end
  = bool_decide (Exists (λ e, key e = k ∧ Q e) existing).
Proof.
  intros Hnd. destruct (last_with key k existing) as [e|] eqn:Hlast.
  - apply last_with_elem in Hlast as [He Hk].
    destruct (decide (Q e)) as [HQ|HQ].
    + rewrite !bool_decide_eq_true_2; [done| |done].
      apply Exists_exists. by exists e.
    + rewrite !bool_decide_eq_false_2; [done| |done].
      intros (x & Hx & Hkx & HQx)%Exists_exists.
      assert (last_with key (key x) existing = Some x) as Hlx
        by by apply last_with_unique.
      assert (last_with key (key e) existing = Some e) as Hle
        by by apply last_with_unique.
      rewrite Hkx, <-Hk, Hle in Hlx. by injection Hlx as ->.
  - rewrite bool_decide_eq_false_2; [done|].
    intros (x & Hx & Hkx & _)%Exists_exists.
    assert (last_with key (key x) existing = Some x) as Hlx
      by by apply last_with_unique.
    by rewrite Hkx, Hlast in Hlx.
Qed.

Lemma reconciled_with_last_unique (existing : list bib_entry) (r : bib_entry) :
  NoDup (normTitle <$> existing) → NoDup (normId <$> existing) →
  reconciled_with_last existing r = reconciled_with_some existing r.
Proof.
  intros Ht Hi. unfold reconciled_with_last, reconciled_with_some.
  rewrite (last_with_Exists normTitle existing (normTitle r)
             (λ e, e !! "ID" = Some (get r "ID" (VStr "")))) by done.
  rewrite (last_with_Exists normId existing (normId r)
             (λ e, e !! "title" = Some (get r "title" (VStr "")))) by done.
  destruct (decide (Exists (λ e, normTitle e = normTitle r
              ∧ e !! "ID" = Some (get r "ID" (VStr ""))) existing)) as [H1|H1];
  destruct (decide (Exists (λ e, normId e = normId r
              ∧ e !! "title" = Some (get r "title" (VStr ""))) existing))
    as [H2|H2].
  - rewrite !bool_decide_eq_true_2; [done|by left|done|done].
  - rewrite (bool_decide_eq_true_2 _ H1). simpl.
    by rewrite bool_decide_eq_true_2 by (by left).
  - rewrite (bool_decide_eq_false_2 _ H1), (bool_decide_eq_true_2 _ H2). simpl.
    by rewrite bool_decide_eq_true_2 by (by right).
  - rewrite (bool_decide_eq_false_2 _ H1), (bool_decide_eq_false_2 _ H2). simpl.
    rewrite bool_decide_eq_false_2; [done|]. by intros [?|?].
Qed.

(** ** Similarity Grouper: exceptions *)

Lemma found_with_total (m : odict) (k field : string) (v : pyval) :
  (∀ e, od_get k m = Some e → is_Some (e !! field)) →
  ∃ b, found_with m k field v = Ok b.
Proof.
  intros Hm. unfold found_with, getitem.
  destruct (od_get k m) as [e|]; [|by eauto].
  destruct (Hm e eq_refl) as [x ->]. simpl. eauto.
Qed.

Lemma exact_match_total (existing : list bib_entry) (tmap imap : odict)
    (title1 id1 : string) (entry1 : bib_entry) :
  Forall has_title_and_ID existing →
  dict_by title_key existing = Ok tmap →
  dict_by id_key existing = Ok imap →
  ∃ b, exact_match tmap imap title1 id1 entry1 = Ok b.
Proof.
  intros Hkeys Ht Hi. rewrite Forall_forall in Hkeys. unfold exact_match.
  destruct (found_with_total tmap title1 "ID" (get entry1 "ID" (VStr "")))
    as [b1 ->].
  { intros e. rewrite (title_map_lookup existing) by done.
    intros [He _]%last_with_elem. by apply Hkeys. }
  rewrite result_bind_Ok. destruct b1; [by eauto|].
  apply found_with_total.
  intros e. rewrite (id_map_lookup existing) by done.
  intros [He _]%last_with_elem. by apply Hkeys.
Qed.

Lemma inner_loop_total (title1 id1 : string) (il : list (nat * bib_entry))
    (st : list bib_entry * gset nat) :
  (∀ p, p ∈ il → text_title p.2) →
  ∃ st', for_each (inner_step title1 id1) st il = Ok st'.
Proof.
  intros Htext. apply for_each_total. intros [g P] [j e] He%Htext.
  unfold inner_step. destruct (decide (j ∈ P)); [by eauto|].
  fold (title_key e). rewrite title_key_text by done. simpl.
  destruct (_ || _); eauto.
Qed.

(** C10. On a batch and an existing collection whose titles are text,
    [find_similar_entries] returns whenever every existing record has both
    a [title] key and an [ID] key; without the key an existing record that
    the exclusion check reaches makes the subscript raise [KeyError]. *)
Theorem find_similar_entries_safe :
  (∀ entries existing_entries : list bib_entry,
     Forall text_title entries →
     Forall text_title existing_entries →
     Forall has_title_and_ID existing_entries →
     ∃ similar_groups,
       find_similar_entries entries existing_entries = Ok similar_groups)
  ∧ find_similar_entries [new_A_X; new_a_y] [lib_A_no_ID] = Raise KeyError
  ∧ find_similar_entries [new_A_X; new_a_y] [lib_x_no_title] = Raise KeyError.
Proof.
  split; [|by split].
  intros entries existing Hbatch Hlib Hkeys. unfold find_similar_entries.
  rewrite Forall_forall in Hbatch. rewrite Forall_forall in Hlib.
  destruct (dict_by_total title_key existing) as [tmap Ht].
  { intros e He%Hlib. rewrite title_key_text by done. eauto. }
  destruct (dict_by_total id_key existing) as [imap Hi].
  { intros e _. unfold id_key. eauto. }
  rewrite Ht, Hi, !result_bind_Ok.
  destruct (for_each_total (outer_step tmap imap entries)
              (enumerate_from 0 entries) ([], ∅)) as [st' ->];
    [|rewrite result_bind_Ok; by eauto].
  intros [groups P] [i e] He%enumerate_from_elem. simpl in He.
  destruct (decide (i ∈ P)) as [HiP|HiP].
  { rewrite outer_step_skip by done. eauto. }
  rewrite outer_step_text; [|done|by apply Hbatch].
  destruct (inner_loop_total (normTitle e) (normId e)
              (enumerate_from (i + 1) (drop (i + 1) entries))
              ([e], {[i]} ∪ P)) as [inner ->].
  { intros p Hp%enumerate_from_elem. apply Hbatch.
    by apply (subseteq_drop (i + 1) entries). }
  rewrite result_bind_Ok.
  destruct (exact_match_total existing tmap imap (normTitle e) (normId e) e)
    as [skip ->]; [done..|].
  rewrite result_bind_Ok. destruct skip; [by eauto|].
  destruct (1 <? _)%nat; eauto.
Qed.

Lemma find_similar_entries_safe_witness :
  ∃ similar_groups,
    find_similar_entries [new_A_X; new_a_y] [lib_A_x; lib_B_X]
    = Ok similar_groups.
Proof.
  apply (proj1 find_similar_entries_safe).
  - repeat constructor; discriminate.
  - repeat constructor; discriminate.
  - repeat constructor; eexists; reflexivity.
Defined.

(** ** Conflict Resolver: reassembly *)

Lemma resolve_step_eq (sel : gmap string nat) (acc : list bib_entry)
    (n : nat) (g : list bib_entry) :
  resolve_step sel acc (n, g)
  = match g !! selected_idx sel n with
    | Some c => Ok (acc ++ [c])
    | None => Raise IndexError
    end.
Proof. done. Qed.

Lemma resolve_loop (sel : gmap string nat) (gs : list (list bib_entry))
    (n : nat) (acc : list bib_entry) :
  match for_each (resolve_step sel) acc (enumerate_from n gs) with
  | Ok resolved =>
      ∃ chosen, resolved = acc ++ chosen
        ∧ length chosen = length gs
        ∧ ∀ i group, gs !! i = Some group →
            ∃ c, chosen !! i = Some c
                 ∧ group !! selected_idx sel (n + i) = Some c
  | Raise ex =>
      ex = IndexError
      ∧ ∃ i group, gs !! i = Some group
                   ∧ length group ≤ selected_idx sel (n + i)
  end.
Proof.
  revert n acc. induction gs as [|g gs IH]; intros n acc;
    cbn [enumerate_from for_each].
  - exists []. rewrite app_nil_r. split_and!; [done..|].
    intros i group Hi. by rewrite lookup_nil in Hi.
  - rewrite resolve_step_eq.
    destruct (g !! selected_idx sel n) as [c|] eqn:Hc.
    + rewrite result_bind_Ok. specialize (IH (S n) (acc ++ [c])).
      destruct (for_each _ _ _) as [resolved|ex].
      * destruct IH as (chosen & -> & Hlen & Hsel).
        exists (c :: chosen). split_and!.
        -- by rewrite <-(assoc_L (++)).
        -- simpl. by rewrite Hlen.
        -- intros [|i] group Hi; simpl in *.
           ++ injection Hi as <-. exists c. by rewrite Nat.add_0_r.
           ++ rewrite <-Nat.add_succ_comm. by apply Hsel.
      * destruct IH as (-> & i & group & Hi & Hlen). split; [done|].
        exists (S i), group. rewrite <-Nat.add_succ_comm. done.
    + simpl. split; [done|]. exists 0, g. rewrite Nat.add_0_r.
      split; [done|]. by apply lookup_ge_None.
Qed.

Lemma non_conflicting_outside (groups : list (list bib_entry))
    (batch : list bib_entry) :
  filter (λ e, get e "ID" (VStr "")
               ∉@{gset pyval}
               list_to_set ((λ entry, get entry "ID" (VStr "")) <$> concat groups))
         batch
  = filter (outside_groups groups) batch.
Proof.
  apply list_filter_iff. intros e. unfold outside_groups.
  rewrite elem_of_list_to_set, list_elem_of_fmap, Forall_forall.
  split.
  - intros Hno g Hg. apply Forall_forall. intros m Hm Heq.
    apply Hno. exists m. split; [done|].
    apply elem_of_concat. by exists g.
  - intros Hall (m & Heq & (g & Hm & Hg)%elem_of_concat).
    specialize (Hall g Hg). rewrite Forall_forall in Hall.
    by apply (Hall m Hm).
Qed.

Lemma length_string_app (s t : string) :
  String.length (s +:+ t) = String.length s + String.length t.
Proof. induction s as [|a s IH]; simpl; [done|]. by rewrite IH. Qed.

Lemma string_app_inj_r (s1 s2 t : string) : s1 +:+ t = s2 +:+ t → s1 = s2.
Proof.
  revert s2. induction s1 as [|a s1 IH]; intros [|b s2] Heq; [done| | |].
  - apply (f_equal String.length) in Heq.
    rewrite !length_string_app in Heq. simpl in Heq. lia.
  - apply (f_equal String.length) in Heq.
    rewrite !length_string_app in Heq. simpl in Heq. lia.
  - injection Heq as -> Heq. f_equal. by apply IH.
Qed.

(** Distinct groups have distinct slots in [conflict_selections]. *)
#[global] Instance state_key_inj : Inj (=) (=) state_key.
Proof.
  intros i j Heq. unfold state_key in Heq.
  apply (inj (String.append "group_")) in Heq.
  apply string_app_inj_r in Heq.
  by apply (inj pretty).
Qed.

(** The dictionary that holds the selections under the keys of their
    groups gives back, for each group, the selection made for it. *)
Lemma selected_idx_kmap (selections : gmap nat nat) (i : nat) :
  selected_idx (kmap state_key selections) i = default 0 (selections !! i).
Proof.
  unfold selected_idx.
  by rewrite (lookup_kmap (M1:=gmap nat) (M2:=gmap string) state_key).
Qed.

(** C6. For every selection mapping, from group index to member index, held
    in [conflict_selections] under the keys of the groups: on confirmation
    the reassembled batch is one chosen record per group, the member at the
    index selected for that group and at index 0 where none was selected,
    followed by every record of the filtered batch whose raw [ID] is the raw
    [ID] of no member of any group; the only failure is a selected index
    outside its group. *)
Theorem show_conflict_resolution_reassembly
    (similar_groups : list (list bib_entry)) (selections : gmap nat nat)
    (all_new_entries : list bib_entry) :
  match show_conflict_resolution similar_groups (kmap state_key selections)
          all_new_entries with
  | Ok resolved_entries =>
      ∃ chosen,
        one_per_group similar_groups selections chosen
        ∧ resolved_entries
          = chosen ++ filter (outside_groups similar_groups) all_new_entries
  | Raise ex =>
      ex = IndexError
      ∧ ∃ i group, similar_groups !! i = Some group
                   ∧ length group ≤ default 0 (selections !! i)
  end.
Proof.
  unfold show_conflict_resolution.
  pose proof (resolve_loop (kmap state_key selections) similar_groups 0 [])
    as Hloop.
  destruct (for_each _ _ _) as [resolved|ex].
  - destruct Hloop as (chosen & -> & Hlen & Hsel).
    exists chosen. split.
    + split; [done|]. intros i group Hi.
      destruct (Hsel i group Hi) as (c & Hc & Hpick).
      exists c. by rewrite <-selected_idx_kmap.
    + cbn [mbind result_bind app]. by rewrite non_conflicting_outside.
  - destruct Hloop as (-> & i & group & Hi & Hlen). split; [done|].
    exists i, group. by rewrite <-selected_idx_kmap.
Qed.

Example conflict_selections_sample :
  kmap state_key ({[ 0 := 1; 2 := 0 ]} : gmap nat nat)
  = ({[ "group_0_selection" := 1; "group_2_selection" := 0 ]}
       : gmap string nat).
Proof. vm_compute. reflexivity. Qed.

Example show_conflict_resolution_sample :
  show_conflict_resolution [[new_dl_a; new_dl_b]]
    {[ "group_0_selection" := 1 ]} [new_dl_a; new_dl_b; new_c]
  = Ok [new_dl_b; new_c]
  ∧ show_conflict_resolution [[new_dl_a; new_dl_b]] ∅
      [new_dl_a; new_dl_b; new_c]
    = Ok [new_dl_a; new_c].
Proof. split; reflexivity. Qed.

(** * Further properties of the engine *)

(** ** Merge Engine: size, titles and positions of the merged collection *)

Lemma od_set_index (k : string) (v stored : bib_entry) (m : odict) :
  od_get k m = Some stored →
  ∃ j, m !! j = Some (k, stored) ∧ od_set k v m = <[j := (k, v)]> m.
Proof.
  induction m as [|[k' v'] m IH]; simpl; [done|].
  case_decide as Hk.
  - intros [= ->]. subst. by exists 0.
  - intros (j & Hj & ->)%IH. by exists (S j).
Qed.

Lemma od_get_lookup (k : string) (r : bib_entry) (m : odict) (j : nat) :
  NoDup m.*1 → m !! j = Some (k, r) → od_get k m = Some r.
Proof.
  revert j. induction m as [|[k' v'] m IH]; intros j Hnd; simpl; [done|].
  simpl in Hnd. apply NoDup_cons in Hnd as [Hk' Hnd].
  destruct j as [|j]; simpl.
  - intros [= -> ->]. by rewrite decide_True.
  - intros Hj. rewrite decide_False; [by eapply IH|].
    intros ->. apply Hk'. apply list_elem_of_fmap.
    exists (k, r). split; [done|]. by eapply list_elem_of_lookup_2.
Qed.

Lemma od_get_elem_values (k : string) (r : bib_entry) (m : odict) :
  od_get k m = Some r → r ∈ od_values m.
Proof.
  induction m as [|[k' v'] m IH]; simpl; [done|].
  case_decide; [intros [= ->]; left|intros ?; right; by apply IH].
Qed.

Lemma od_wf_normTitle (m : odict) :
  od_wf m → normTitle <$> od_values m = m.*1.
Proof.
  intros [_ Hall]. unfold od_values.
  induction m as [|[k r] m IH]; [done|].
  apply Forall_cons in Hall as [Hk Hall]. rewrite !fmap_cons.
  rewrite IH by done. f_equal. simpl in *.
  pose proof (title_key_Ok _ _ Hk) as Htext.
  rewrite title_key_text in Hk by done. by injection Hk.
Qed.

Lemma dict_by_distinct (existing : list bib_entry) :
  NoDup (normTitle <$> existing) → Forall text_title existing →
  dict_by title_key existing = Ok ((λ e, (normTitle e, e)) <$> existing).
Proof.
  intros Hnd Htext.
  assert (od_values ((λ e, (normTitle e, e)) <$> existing) = existing) as Hv.
  { unfold od_values. rewrite <-list_fmap_compose. apply list_fmap_id. }
  rewrite <-Hv at 1. apply dict_by_values. split.
  - by rewrite <-list_fmap_compose.
  - apply Forall_fmap. eapply Forall_impl; [done|].
    intros e He. simpl. by apply title_key_text.
Qed.

Lemma dict_by_keys (existing : list bib_entry) (m : odict) (k : string) :
  dict_by title_key existing = Ok m →
  k ∈ m.*1 ↔ k ∈ normTitle <$> existing.
Proof.
  intros Hm. split.
  - intros Hk. destruct (od_get k m) as [r|] eqn:Hr;
      [|by apply od_get_None in Hr].
    rewrite (title_map_lookup existing) in Hr by done.
    apply last_with_elem in Hr as [Hr <-]. by apply list_elem_of_fmap_2.
  - intros (e & -> & He)%list_elem_of_fmap.
    destruct (decide (normTitle e ∈ m.*1)) as [|Hn]; [done|].
    apply od_get_None in Hn.
    rewrite (title_map_lookup existing) in Hn by done.
    unfold last_with in Hn. apply last_None in Hn.
    assert (e ∈ filter (λ x, normTitle x = normTitle e) existing) as Hin
      by by apply list_elem_of_filter.
    rewrite Hn in Hin. by apply elem_of_nil in Hin.
Qed.

Lemma for_each_merge_length (l : list bib_entry) (m m' : odict)
    (a a' u u' : nat) :
  for_each merge_entry (m, a, u) l = Ok (m', a', u') →
  length m' + a = length m + a'.
Proof.
  revert m a u. induction l as [|x l IH]; intros m a u; cbn [for_each].
  - by intros [= <- <- _].
  - destruct (merge_entry (m, a, u) x) as [[[m1 a1] u1]|] eqn:Hx; [|done].
    rewrite result_bind_Ok. intros Hl%IH.
    destruct (decide (titled x)) as [Ht|Ht].
    + destruct (merge_entry_cases _ _ _ _ _ _ _ Ht Hx)
        as (k & _ & [(Hn & -> & -> & _)|[(s & Hs & _ & -> & -> & _)
                                         |(s & _ & _ & -> & -> & _)]]).
      * rewrite od_set_new in Hl by done. rewrite length_app in Hl.
        simpl in Hl. lia.
      * apply (od_set_keys _ (<["ID":=get s "ID" (get x "ID" VNone)]> x)) in Hs.
        apply (f_equal length) in Hs. rewrite !length_fmap in Hs. lia.
      * done.
    + rewrite merge_entry_untitled in Hx by done.
      injection Hx as <- <- _. done.
Qed.

Lemma for_each_merge_keys (l : list bib_entry) (m m' : odict)
    (a a' u u' : nat) (k : string) :
  for_each merge_entry (m, a, u) l = Ok (m', a', u') →
  k ∈ m'.*1 ↔ k ∈ m.*1 ∨ ∃ e, e ∈ l ∧ titled e ∧ normTitle e = k.
Proof.
  revert m a u. induction l as [|x l IH]; intros m a u; cbn [for_each].
  - intros [= <- _ _]. split; [by left|].
    intros [?|(e & ?%elem_of_nil & _)]; done.
  - destruct (merge_entry (m, a, u) x) as [[[m1 a1] u1]|] eqn:Hx; [|done].
    rewrite result_bind_Ok. intros Hl%IH. rewrite Hl. clear Hl IH.
    destruct (decide (titled x)) as [Ht|Ht].
    + destruct (merge_entry_cases _ _ _ _ _ _ _ Ht Hx)
        as (kx & Hkx & Hcases).
      pose proof (title_key_Ok _ _ Hkx) as Htext.
      rewrite title_key_text in Hkx by done. injection Hkx as <-.
      assert (k ∈ m1.*1 ↔ k ∈ m.*1 ∨ normTitle x = k) as ->.
      { destruct Hcases as [(Hn & -> & _)|[(s & Hs & _ & -> & _)
                                          |(s & Hs & _ & -> & _)]].
        - rewrite od_set_new by done. rewrite fmap_app, elem_of_app.
          simpl. rewrite list_elem_of_singleton.
          split; (intros [?|?]; [by left|by right]).
        - rewrite (od_set_keys _ _ s) by done. split; [by left|].
          intros [?|<-]; [done|].
          destruct (decide (normTitle x ∈ m.*1)) as [|Hn]; [done|].
          apply od_get_None in Hn. congruence.
        - split; [by left|]. intros [?|<-]; [done|].
          destruct (decide (normTitle x ∈ m.*1)) as [|Hn]; [done|].
          apply od_get_None in Hn. congruence. }
      split.
      * intros [[?|<-]|(e & He & Hte & <-)]; [by left| |].
        -- right. exists x. split_and!; [left|done..].
        -- right. exists e. split_and!; [by right|done..].
      * intros [?|(e & [->|He]%elem_of_cons & Hte & <-)].
        -- by left; left.
        -- by left; right.
        -- right. by exists e.
    + rewrite merge_entry_untitled in Hx by done. injection Hx as <- _ _.
      split.
      * intros [?|(e & He & Hte & <-)]; [by left|].
        right. exists e. split_and!; [by right|done..].
      * intros [?|(e & [->|He]%elem_of_cons & Hte & <-)]; [by left|done|].
        right. by exists e.
Qed.

Lemma od_get_elem (k : string) (v : bib_entry) (m : odict) :
  od_get k m = Some v → (k, v) ∈ m.
Proof.
  induction m as [|[k' v'] m IH]; simpl; [done|].
  case_decide; [intros [= ->]; subst; left|intros ?; right; by apply IH].
Qed.

Lemma od_wf_get (k : string) (r : bib_entry) (m : odict) :
  od_wf m → od_get k m = Some r → r ∈ od_values m ∧ normTitle r = k.
Proof.
  intros [_ Hall] Hr. split; [by eapply od_get_elem_values|].
  apply od_get_elem in Hr. rewrite Forall_forall in Hall.
  specialize (Hall _ Hr). simpl in Hall.
  pose proof (title_key_Ok _ _ Hall) as Htext.
  rewrite title_key_text in Hall by done. by injection Hall.
Qed.

Lemma merge_entry_grows (m m' : odict) (a a' u u' : nat) (entry s0 : bib_entry)
    (k : string) :
  od_get k m = Some s0 →
  merge_entry (m, a, u) entry = Ok (m', a', u') →
  ∃ r, od_get k m' = Some r ∧ size s0 ≤ size r.
Proof.
  intros Hk Hm. destruct (decide (titled entry)) as [Ht|Ht].
  - destruct (merge_entry_cases _ _ _ _ _ _ _ Ht Hm)
      as (kx & _ & [(Hn & -> & _)|[(s & Hs & Hlt & -> & _)|(s & _ & _ & -> & _)]]).
    + exists s0. split; [|done]. rewrite od_get_set_ne; [done|].
      intros ->. congruence.
    + destruct (decide (kx = k)) as [->|Hne].
      * eexists. split; [apply od_get_set_eq|].
        assert (s = s0) as -> by congruence.
        etrans; [|apply size_insert_ge]. lia.
      * exists s0. by rewrite od_get_set_ne.
    + by exists s0.
  - rewrite merge_entry_untitled in Hm by done. injection Hm as <- _ _.
    by exists s0.
Qed.

Lemma for_each_merge_grows (l : list bib_entry) (m m' : odict)
    (a a' u u' : nat) (s0 : bib_entry) (k : string) :
  od_get k m = Some s0 →
  for_each merge_entry (m, a, u) l = Ok (m', a', u') →
  ∃ r, od_get k m' = Some r ∧ size s0 ≤ size r.
Proof.
  revert m a u s0. induction l as [|x l IH]; intros m a u s0 Hk;
    cbn [for_each].
  - intros [= <- _ _]. by exists s0.
  - destruct (merge_entry (m, a, u) x) as [[[m1 a1] u1]|] eqn:Hx; [|done].
    rewrite result_bind_Ok. intros Hl.
    destruct (merge_entry_grows _ _ _ _ _ _ _ _ _ Hk Hx) as (r1 & Hr1 & Hle1).
    destruct (IH _ _ _ _ Hr1 Hl) as (r & Hr & Hle).
    exists r. split; [done|lia].
Qed.

Lemma merge_entry_keeps_positions (existing : list bib_entry) (m m' : odict)
    (a a' u u' : nat) (entry : bib_entry) :
  Forall (λ e, is_Some (e !! "ID")) existing →
  keeps_positions existing m →
  merge_entry (m, a, u) entry = Ok (m', a', u') →
  keeps_positions existing m'.
Proof.
  intros HID Hkeep Hm. destruct (decide (titled entry)) as [Ht|Ht].
  - destruct (merge_entry_cases _ _ _ _ _ _ _ Ht Hm)
      as (kx & _ & [(Hn & -> & _)|[(s & Hs & Hlt & -> & _)|(s & _ & _ & -> & _)]]).
    + intros i e He. destruct (Hkeep i e He) as (r & Hr & Hid & Hsz).
      exists r. split; [|done]. rewrite od_set_new by done.
      rewrite lookup_app_l; [done|]. by eapply lookup_lt_Some.
    + destruct (od_set_index kx
                  (<["ID":=get s "ID" (get entry "ID" VNone)]> entry) s m Hs)
        as (j & Hj & ->).
      intros i e He. destruct (Hkeep i e He) as (r & Hr & Hid & Hsz).
      destruct (decide (i = j)) as [->|Hne].
      * rewrite Hj in Hr. injection Hr as -> ->.
        eexists. split; [apply list_lookup_insert_eq; by eapply lookup_lt_Some|].
        rewrite Forall_forall in HID.
        destruct (HID e) as [v Hv]; [by eapply list_elem_of_lookup_2|].
        split.
        -- unfold get. rewrite Hid, Hv. simpl.
           apply lookup_insert_eq.
        -- etrans; [|apply size_insert_ge]. lia.
      * exists r. by rewrite list_lookup_insert_ne.
    + done.
  - rewrite merge_entry_untitled in Hm by done. by injection Hm as <- _ _.
Qed.

Section merge_bib_data_further.
(** The properties hold whatever the two parser attempts answer. *)
Variable loads : string → option (list bib_entry).
Variable loads_with_parser : string → option (list bib_entry).

(** X1. The merged collection has one record per distinct normalized title of
    the existing collection, plus one per record counted as added. *)
Theorem merge_bib_data_length
    (existing_entries batch merged : list bib_entry) (new_bib_str : string)
    (added updated : nat) :
  parse loads loads_with_parser new_bib_str = Some batch →
  merge_bib_data loads loads_with_parser existing_entries new_bib_str
  = Ok (merged, added, updated) →
  length merged
  = length (remove_dups (normTitle <$> existing_entries)) + added.
Proof.
  intros Hp. unfold merge_bib_data. rewrite Hp.
  intros (m0 & m & Hm0 & Hm & ->)%merge_entries_inv.
  apply for_each_merge_length in Hm. unfold od_values.
  rewrite length_fmap.
  assert (length m0 = length (remove_dups (normTitle <$> existing_entries)))
    as <-; [|lia].
  rewrite <-(length_fmap fst m0). apply Permutation_length, NoDup_Permutation.
  - by apply dict_by_wf in Hm0 as [? _].
  - apply NoDup_remove_dups.
  - intros k. rewrite elem_of_remove_dups. by apply dict_by_keys.
Qed.

(** X2. No normalized title is lost in a merge, and none appears that neither
    the existing collection nor a titled record of the batch had. *)
Theorem merge_bib_data_titles
    (existing_entries batch merged : list bib_entry) (new_bib_str : string)
    (added updated : nat) (k : string) :
  parse loads loads_with_parser new_bib_str = Some batch →
  merge_bib_data loads loads_with_parser existing_entries new_bib_str
  = Ok (merged, added, updated) →
  k ∈ normTitle <$> merged
  ↔ k ∈ normTitle <$> existing_entries
    ∨ ∃ e, e ∈ batch ∧ titled e ∧ normTitle e = k.
Proof.
  intros Hp. unfold merge_bib_data. rewrite Hp.
  intros (m0 & m & Hm0 & Hm & ->)%merge_entries_inv.
  rewrite od_wf_normTitle.
  - rewrite (for_each_merge_keys _ _ _ _ _ _ _ k Hm).
    by rewrite (dict_by_keys existing_entries m0 k Hm0).
  - apply (for_each_merge_wf batch (m0, 0, 0) (m, added, updated));
      [by apply dict_by_wf in Hm0|done].
Qed.

(** X3. After a merge the collection holds, for every titled record of the batch
    and for the record the existing collection kept under each normalized
    title, a record with that normalized title and at least as many
    fields. *)
Theorem merge_bib_data_field_count
    (existing_entries batch merged : list bib_entry) (new_bib_str : string)
    (added updated : nat) :
  parse loads loads_with_parser new_bib_str = Some batch →
  merge_bib_data loads loads_with_parser existing_entries new_bib_str
  = Ok (merged, added, updated) →
  (∀ e, e ∈ batch → titled e →
        ∃ r, r ∈ merged ∧ normTitle r = normTitle e ∧ size e ≤ size r)
  ∧ (∀ k s, last_with normTitle k existing_entries = Some s →
            ∃ r, r ∈ merged ∧ normTitle r = k ∧ size s ≤ size r).
Proof.
  intros Hp. unfold merge_bib_data. rewrite Hp.
  intros (m0 & m & Hm0 & Hm & ->)%merge_entries_inv.
  assert (od_wf m) as Hwf.
  { apply (for_each_merge_wf batch (m0, 0, 0) (m, added, updated));
      [by apply dict_by_wf in Hm0|done]. }
  split.
  - intros e He Ht.
    destruct (for_each_merge_covers _ _ _ Hm e He)
      as [Hc|(k & s & Hk & Hs & Hle)]; [unfold titled in Ht; congruence|].
    destruct (od_wf_get _ _ _ Hwf Hs) as [Hin Hks].
    exists s. split_and!; [done| |done].
    pose proof (title_key_Ok _ _ Hk) as Htext.
    rewrite title_key_text in Hk by done. injection Hk as <-. done.
  - intros k s Hs. rewrite <-(title_map_lookup _ m0) in Hs by done.
    destruct (for_each_merge_grows _ _ _ _ _ _ _ _ _ Hs Hm) as (r & Hr & Hle).
    destruct (od_wf_get _ _ _ Hwf Hr) as [Hin Hkr].
    by exists r.
Qed.

(** X4. When the existing records have pairwise distinct normalized titles and
    each an [ID], the merge returns, and every existing record keeps its
    position, its normalized title and its [ID], without losing fields. *)
Theorem merge_bib_data_keeps_positions
    (existing_entries batch : list bib_entry) (new_bib_str : string) :
  parse loads loads_with_parser new_bib_str = Some batch →
  NoDup (normTitle <$> existing_entries) →
  Forall text_title existing_entries →
  Forall (λ e, is_Some (e !! "ID")) existing_entries →
  ∃ merged added updated,
    merge_bib_data loads loads_with_parser existing_entries new_bib_str
    = Ok (merged, added, updated)
    ∧ ∀ i e, existing_entries !! i = Some e →
        ∃ r, merged !! i = Some r ∧ normTitle r = normTitle e
             ∧ r !! "ID" = e !! "ID" ∧ size e ≤ size r.
Proof.
  intros Hp Hnd Htext HID. unfold merge_bib_data. rewrite Hp.
  destruct (merge_entries_total existing_entries batch Htext)
    as [[[merged a] u] Hmerge].
  exists merged, a, u. split; [done|].
  apply merge_entries_inv in Hmerge as (m0 & m & Hm0 & Hm & ->).
  rewrite dict_by_distinct in Hm0 by done. injection Hm0 as <-.
  assert (keeps_positions existing_entries m) as Hkeep.
  { revert Hm.
    assert (keeps_positions existing_entries
              ((λ e, (normTitle e, e)) <$> existing_entries)) as Hinit.
    { intros i e He. exists e. rewrite list_lookup_fmap, He. done. }
    revert Hinit.
    change ((λ e, (normTitle e, e)) <$> existing_entries)
      with (((λ e, (normTitle e, e)) <$> existing_entries, 0, 0).1.1) at 1.
    change m with (m, a, u).1.1 at 2.
    generalize ((λ e, (normTitle e, e)) <$> existing_entries, 0, 0) (m, a, u).
    apply (for_each_invariant (λ st, keeps_positions existing_entries st.1.1)).
    intros [[m1 a1] u1] x [[m2 a2] u2] _. simpl.
    by apply merge_entry_keeps_positions. }
  intros i e He. destruct (Hkeep i e He) as (r & Hr & Hid & Hsz).
  exists r. unfold od_values. rewrite list_lookup_fmap, Hr. simpl.
  split_and!; [done| |done..].
  assert (od_wf m) as [_ Hall].
  { apply (for_each_merge_wf batch
             ((λ e, (normTitle e, e)) <$> existing_entries, 0, 0) (m, a, u));
      [|done]. apply dict_by_wf with existing_entries.
    by apply dict_by_distinct. }
  pose proof (Forall_lookup_1 _ _ _ _ Hall Hr) as Hk. simpl in Hk.
  pose proof (title_key_Ok _ _ Hk) as Htr.
  rewrite title_key_text in Hk by done. by injection Hk.
Qed.

(** X5. A batch that brings no new title and no record with more fields than
    the one the collection holds under the same title leaves a collection
    with pairwise distinct normalized titles exactly as it was. *)
Theorem merge_bib_data_nothing_richer
    (existing_entries batch : list bib_entry) (new_bib_str : string) :
  parse loads loads_with_parser new_bib_str = Some batch →
  NoDup (normTitle <$> existing_entries) →
  Forall text_title existing_entries →
  (∀ e, e ∈ batch → titled e →
        ∃ s, s ∈ existing_entries ∧ normTitle s = normTitle e
             ∧ size e ≤ size s) →
  merge_bib_data loads loads_with_parser existing_entries new_bib_str
  = Ok (existing_entries, 0, 0).
Proof.
  intros Hp Hnd Htext Hold. unfold merge_bib_data, merge_entries.
  rewrite Hp, dict_by_distinct, result_bind_Ok by done.
  rewrite for_each_merge_noop.
  - rewrite result_bind_Ok. simpl. unfold od_values.
    by rewrite <-list_fmap_compose, list_fmap_id.
  - intros e He. destruct (decide (titled e)) as [Ht|Ht];
      [|left; by apply not_true_iff_false].
    right. destruct (Hold e He Ht) as (s & Hs & Hks & Hle).
    exists (normTitle e), s. split_and!; [| |done].
    + apply title_key_text. intros Hnone. unfold titled, get in Ht.
      by rewrite Hnone in Ht.
    + apply list_elem_of_lookup in Hs as [j Hj].
      apply (od_get_lookup _ _ _ j).
      * by rewrite <-list_fmap_compose.
      * rewrite list_lookup_fmap, Hj. simpl. by rewrite Hks.
Qed.
End merge_bib_data_further.

Lemma merge_bib_data_length_witness :
  length [<["ID" := VStr "goodfellow16"]> new_deep; new_other]
  = length (remove_dups (normTitle <$> [lib_deep])) + 1.
Proof.
  apply (merge_bib_data_length (loads_const [new_deep; new_other]) loads_fail
           [lib_deep] [new_deep; new_other] _ "@book{...}" 1 1);
    reflexivity.
Defined.

Lemma merge_bib_data_titles_witness :
  "other" ∈ normTitle <$> [<["ID" := VStr "goodfellow16"]> new_deep; new_other]
  ↔ "other" ∈ normTitle <$> [lib_deep]
    ∨ ∃ e, e ∈ [new_deep; new_other] ∧ titled e ∧ normTitle e = "other".
Proof.
  apply (merge_bib_data_titles (loads_const [new_deep; new_other]) loads_fail
           [lib_deep] [new_deep; new_other] _ "@book{...}" 1 1);
    reflexivity.
Defined.

Lemma merge_bib_data_field_count_witness :
  ∃ r, r ∈ [<["ID" := VStr "goodfellow16"]> new_deep; new_other]
       ∧ normTitle r = normTitle new_deep ∧ size new_deep ≤ size r.
Proof.
  apply (proj1 (merge_bib_data_field_count
                  (loads_const [new_deep; new_other]) loads_fail
                  [lib_deep] [new_deep; new_other] _ "@book{...}" 1 1
                  eq_refl eq_refl)).
  - left.
  - reflexivity.
Defined.

Lemma merge_bib_data_keeps_positions_witness :
  ∃ merged added updated,
    merge_bib_data (loads_const [new_deep; new_other]) loads_fail
      [lib_deep] "@book{...}" = Ok (merged, added, updated)
    ∧ ∀ i e, [lib_deep] !! i = Some e →
        ∃ r, merged !! i = Some r ∧ normTitle r = normTitle e
             ∧ r !! "ID" = e !! "ID" ∧ size e ≤ size r.
Proof.
  apply (merge_bib_data_keeps_positions (loads_const [new_deep; new_other])
           loads_fail [lib_deep] [new_deep; new_other] "@book{...}").
  - reflexivity.
  - apply NoDup_singleton.
  - repeat constructor. discriminate.
  - repeat constructor. by eexists.
Defined.

Lemma merge_bib_data_nothing_richer_witness :
  merge_bib_data (loads_const [lib_deep; new_untitled]) loads_fail
    [new_deep; new_other] "@book{...}"
  = Ok ([new_deep; new_other], 0, 0).
Proof.
  apply (merge_bib_data_nothing_richer (loads_const [lib_deep; new_untitled])
           loads_fail [new_deep; new_other] [lib_deep; new_untitled]
           "@book{...}").
  - reflexivity.
  - apply (bool_decide_unpack _). vm_compute. exact I.
  - repeat constructor; discriminate.
  - intros e He Ht. apply elem_of_cons in He as [->|He].
    + exists new_deep. split_and!; [left|reflexivity|vm_compute; lia].
    + apply list_elem_of_singleton in He as ->. vm_compute in Ht. discriminate Ht.
Defined.

(** ** Exact-Duplicate Filter: filtering twice *)

Lemma keep_unseen_distinct (earlier l : list bib_entry) :
  NoDup (pair_of <$> (earlier ++ l)) → keep_unseen earlier l = l.
Proof.
  revert earlier. induction l as [|e l IH]; intros earlier Hnd; simpl; [done|].
  assert (earlier ++ e :: l = (earlier ++ [e]) ++ l) as Heq
    by (by rewrite <-(assoc_L (++))).
  rewrite IH by (by rewrite <-Heq).
  rewrite decide_False; [done|].
  rewrite fmap_app in Hnd. simpl in Hnd.
  apply NoDup_app in Hnd as (_ & Hdis & _).
  intros Hin. apply (Hdis _ Hin). left.
Qed.

Lemma remove_exact_duplicates_Ok (entries out : list bib_entry) :
  remove_exact_duplicates entries = Ok out →
  out = exact_duplicate_filter entries ∧ Forall text_title entries.
Proof.
  unfold remove_exact_duplicates.
  pose proof (remove_exact_duplicates_loop entries [] [] ∅) as Hloop.
  destruct (for_each _ _ entries) as [st|ex] eqn:Hfor; [|done].
  rewrite result_bind_Ok. intros [= <-]. split.
  - rewrite exact_duplicate_filter_keep_unseen. apply Hloop.
    intros k. simpl. by rewrite elem_of_nil, elem_of_empty.
  - apply Forall_forall. intros x Hx Hnone.
    destruct (for_each_Ok_elem _ _ _ _ x Hfor Hx) as (s & s' & Hs).
    by rewrite dedup_step_None in Hs.
Qed.

Lemma remove_exact_duplicates_text (entries : list bib_entry) :
  Forall text_title entries →
  remove_exact_duplicates entries = Ok (exact_duplicate_filter entries).
Proof.
  intros Htext. unfold remove_exact_duplicates.
  pose proof (remove_exact_duplicates_loop entries [] [] ∅) as Hloop.
  destruct (for_each _ _ entries) as [st|ex].
  - rewrite result_bind_Ok, exact_duplicate_filter_keep_unseen. f_equal.
    apply Hloop. intros k. simpl. by rewrite elem_of_nil, elem_of_empty.
  - destruct Hloop as [_ Hex].
    { intros k. simpl. by rewrite elem_of_nil, elem_of_empty. }
    apply Exists_exists in Hex as (x & Hx & Hnone).
    rewrite Forall_forall in Htext. by destruct (Htext x Hx).
Qed.

(** X6. A batch with text titles and pairwise distinct (normalized title,
    normalized ID) pairs passes the filter unchanged; so what the filter
    returns passes it unchanged: filtering twice is filtering once. *)
Theorem remove_exact_duplicates_idempotent :
  (∀ entries : list bib_entry,
     Forall text_title entries → NoDup (pair_of <$> entries) →
     remove_exact_duplicates entries = Ok entries)
  ∧ (∀ entries unique_entries : list bib_entry,
       remove_exact_duplicates entries = Ok unique_entries →
       remove_exact_duplicates unique_entries = Ok unique_entries).
Proof.
  assert (∀ entries : list bib_entry,
            Forall text_title entries → NoDup (pair_of <$> entries) →
            remove_exact_duplicates entries = Ok entries) as Hfix.
  { intros entries Htext Hnd. rewrite remove_exact_duplicates_text by done.
    rewrite exact_duplicate_filter_keep_unseen.
    by rewrite keep_unseen_distinct. }
  split; [done|].
  intros entries out [-> Htext]%remove_exact_duplicates_Ok.
  rewrite exact_duplicate_filter_keep_unseen. apply Hfix.
  - apply Forall_forall. intros x Hx. rewrite Forall_forall in Htext.
    apply Htext. eapply elem_of_submseteq; [done|].
    apply sublist_submseteq, keep_unseen_sublist.
  - apply keep_unseen_NoDup.
Qed.

Lemma remove_exact_duplicates_idempotent_witness :
  remove_exact_duplicates [dup_x1; dup_x2] = Ok [dup_x1; dup_x2].
Proof.
  apply (proj2 remove_exact_duplicates_idempotent [dup_x1; dup_x1; dup_x2]).
  reflexivity.
Defined.

(** ** Similarity Grouper: the shape of the groups *)

Lemma find_similar_entries_groups (entries existing : list bib_entry)
    (groups : list (list bib_entry)) :
  find_similar_entries entries existing = Ok groups →
  groups = anchor_groups (reconciled_with_last existing) entries.
Proof.
  unfold find_similar_entries.
  destruct (dict_by title_key _) as [tmap|] eqn:Ht; [|done].
  destruct (dict_by id_key _) as [imap|] eqn:Hi; [|done].
  rewrite !result_bind_Ok.
  destruct (for_each _ _ _) as [[gs P]|] eqn:Hloop; [|done].
  rewrite result_bind_Ok. intros [= <-].
  apply (outer_loop_spec existing entries tmap imap Ht Hi entries 0)
    in Hloop; [|done].
  by rewrite pending_empty, enumerate_from_snd in Hloop.
Qed.

Lemma anchor_groups_shape (reconciled : bib_entry → bool)
    (batch : list bib_entry) :
  Forall (λ g, ∃ r rest, g = r :: rest ∧ rest ≠ [] ∧ Forall (similar r) rest)
         (anchor_groups reconciled batch).
Proof.
  funelim (anchor_groups reconciled batch); simp anchor_groups; [done|].
  apply Forall_app. split; [|done].
  destruct (reconciled r); [done|].
  destruct (1 <? _)%nat eqn:Hlen; [|done].
  apply Nat.ltb_lt in Hlen. apply Forall_singleton.
  exists r, (filter (similar r) rest). split_and!; [done| |].
  - intros Hnil. rewrite Hnil in Hlen. simpl in Hlen. lia.
  - apply Forall_forall. by intros x [? _]%list_elem_of_filter.
Qed.

Lemma anchor_groups_submseteq (reconciled : bib_entry → bool)
    (batch : list bib_entry) :
  concat (anchor_groups reconciled batch) ⊆+ batch.
Proof.
  funelim (anchor_groups reconciled batch); simp anchor_groups; [done|].
  rewrite concat_app.
  assert (r :: rest ≡ₚ (r :: filter (similar r) rest)
                       ++ filter (λ r2, ¬ similar r r2) rest) as ->.
  { simpl. f_equiv. by rewrite filter_app_complement. }
  apply submseteq_app; [|done].
  destruct (reconciled r); [apply submseteq_nil_l|].
  destruct (1 <? _)%nat; [|apply submseteq_nil_l].
  simpl. by rewrite app_nil_r.
Qed.

(** X7. Every group the grouper returns is an anchor followed by at least one
    record matching the anchor on normalized [ID] or normalized title, and
    the groups together take each record of the batch at most once. *)
Theorem find_similar_entries_shape
    (entries existing_entries : list bib_entry)
    (similar_groups : list (list bib_entry)) :
  find_similar_entries entries existing_entries = Ok similar_groups →
  Forall (λ g, ∃ r rest, g = r :: rest ∧ rest ≠ [] ∧ Forall (similar r) rest)
         similar_groups
  ∧ concat similar_groups ⊆+ entries.
Proof.
  intros ->%find_similar_entries_groups. split.
  - apply anchor_groups_shape.
  - apply anchor_groups_submseteq.
Qed.

Lemma find_similar_entries_shape_witness :
  concat [[new_dl_a; new_dl_b]] ⊆+ [new_dl_a; new_dl_b; new_c].
Proof.
  apply (find_similar_entries_shape [new_dl_a; new_dl_b; new_c] []
           [[new_dl_a; new_dl_b]]).
  reflexivity.
Defined.

(** ** Conflict Resolver: the reassembled batch against the upload *)

Lemma chosen_submseteq (chosen : list bib_entry) (gs : list (list bib_entry)) :
  Forall2 (λ c g, c ∈ g) chosen gs → chosen ⊆+ concat gs.
Proof.
  intros Hall. induction Hall as [|c g cs gs' Hc _ IH]; simpl; [done|].
  change (c :: cs) with ([c] ++ cs).
  apply submseteq_app; [by apply singleton_submseteq_l|done].
Qed.

Lemma filter_Forall_id {A : Type} (P : A → Prop) `{!∀ x, Decision (P x)}
    (l : list A) :
  Forall P l → filter P l = l.
Proof.
  induction l as [|x l IH]; [done|].
  intros [Hx Hl]%Forall_cons. by rewrite filter_cons_True, IH.
Qed.

Lemma submseteq_filter_all {A : Type} (P : A → Prop) `{!∀ x, Decision (P x)}
    (l1 l : list A) :
  l1 ⊆+ l → Forall P l1 → l1 ⊆+ filter P l.
Proof.
  intros [k Hk]%submseteq_Permutation Hall. rewrite Hk, filter_app.
  apply submseteq_inserts_r. by rewrite filter_Forall_id.
Qed.

Lemma picked_members (groups : list (list bib_entry))
    (sel : gmap string nat) (chosen : list bib_entry) :
  picked groups sel chosen → Forall2 (λ c g, c ∈ g) chosen groups.
Proof.
  intros [Hlen Hsel]. apply Forall2_same_length_lookup. split; [done|].
  intros i c g Hc Hg. destruct (Hsel i g Hg) as (c' & Hc' & Hin).
  assert (c' = c) as -> by congruence. by eapply list_elem_of_lookup_2.
Qed.

Lemma member_not_outside (groups : list (list bib_entry)) (g : list bib_entry)
    (x : bib_entry) :
  g ∈ groups → x ∈ g → ¬ outside_groups groups x.
Proof.
  intros Hg Hx Hout. unfold outside_groups in Hout.
  rewrite Forall_forall in Hout. specialize (Hout g Hg).
  rewrite Forall_forall in Hout. by apply (Hout x Hx).
Qed.

Lemma show_conflict_resolution_Ok (groups : list (list bib_entry))
    (sel : gmap string nat) (batch out : list bib_entry) :
  show_conflict_resolution groups sel batch = Ok out →
  ∃ chosen, picked groups sel chosen
            ∧ out = chosen ++ filter (outside_groups groups) batch.
Proof.
  unfold show_conflict_resolution.
  pose proof (resolve_loop sel groups 0 []) as Hloop.
  destruct (for_each _ _ _) as [resolved|ex]; [|done].
  destruct Hloop as (chosen & -> & Hlen & Hsel).
  cbn [mbind result_bind app]. rewrite non_conflicting_outside.
  intros [= <-]. exists chosen. split; [by split|done].
Qed.

Lemma show_conflict_resolution_default
    (batch existing : list bib_entry) (groups : list (list bib_entry)) :
  find_similar_entries batch existing = Ok groups →
  ∃ resolved, show_conflict_resolution groups ∅ batch = Ok resolved.
Proof.
  intros Heq%find_similar_entries_groups.
  pose proof (resolve_loop ∅ groups 0 []) as Hloop.
  unfold show_conflict_resolution.
  destruct (for_each _ _ _) as [resolved|ex]; [by eexists|].
  destruct Hloop as (_ & i & g & Hi & Hlen).
  pose proof (anchor_groups_sizes (reconciled_with_last existing) batch) as Hsz.
  rewrite <-Heq, Forall_forall in Hsz.
  specialize (Hsz g (list_elem_of_lookup_2 _ _ _ Hi)).
  unfold selected_idx in Hlen. rewrite lookup_empty in Hlen. simpl in Hlen.
  lia.
Qed.

Lemma show_conflict_resolution_submseteq
    (batch existing : list bib_entry) (groups : list (list bib_entry))
    (sel : gmap string nat) (resolved : list bib_entry) :
  find_similar_entries batch existing = Ok groups →
  show_conflict_resolution groups sel batch = Ok resolved →
  resolved ⊆+ batch
  ∧ length resolved
    = length groups + length (filter (outside_groups groups) batch).
Proof.
  intros Heq%find_similar_entries_groups
         (chosen & Hone & ->)%show_conflict_resolution_Ok. split.
  - rewrite <-(filter_app_complement (outside_groups groups) batch) at 2.
    rewrite (comm (++) (filter _ _) (filter (λ x, ¬ _) _)).
    apply submseteq_skips_r.
    etrans; [apply chosen_submseteq, (picked_members _ sel); done|].
    apply submseteq_filter_all.
    + rewrite Heq. apply anchor_groups_submseteq.
    + apply Forall_forall. intros x (g & Hx & Hin)%elem_of_concat.
      by eapply member_not_outside.
  - rewrite length_app. by destruct Hone as [-> _].
Qed.

(** X8. For the groups the grouper found in a batch, confirming with the default
    selections always yields a batch, and whatever the selections the
    reassembled batch takes each record of the batch at most once: one
    record per group plus the records whose raw [ID] no group member has. *)
Theorem reassembly_within_batch
    (all_new_entries existing_entries : list bib_entry)
    (similar_groups : list (list bib_entry)) :
  find_similar_entries all_new_entries existing_entries = Ok similar_groups →
  (∃ resolved_entries,
     show_conflict_resolution similar_groups ∅ all_new_entries
     = Ok resolved_entries)
  ∧ ∀ conflict_selections resolved_entries,
      show_conflict_resolution similar_groups conflict_selections
        all_new_entries = Ok resolved_entries →
      resolved_entries ⊆+ all_new_entries
      ∧ length resolved_entries
        = length similar_groups
          + length (filter (outside_groups similar_groups) all_new_entries).
Proof.
  intros Hg. split.
  - by eapply show_conflict_resolution_default.
  - intros sel out Hout. by eapply show_conflict_resolution_submseteq.
Qed.

Lemma reassembly_within_batch_witness :
  ∃ resolved_entries,
    show_conflict_resolution [[new_dl_a; new_dl_b]] ∅
      [new_dl_a; new_dl_b; new_c] = Ok resolved_entries.
Proof.
  apply (reassembly_within_batch [new_dl_a; new_dl_b; new_c] []
           [[new_dl_a; new_dl_b]]).
  reflexivity.
Defined.

(** ** Similarity Grouper: a batch without matching pairs *)

Lemma anchor_groups_no_pairs (reconciled : bib_entry → bool)
    (batch : list bib_entry) :
  (∀ r r2, [r; r2] `sublist_of` batch → ¬ similar r r2) →
  anchor_groups reconciled batch = [].
Proof.
  funelim (anchor_groups reconciled batch); simp anchor_groups; [done|].
  intros Hpairs.
  assert (filter (similar r) rest = []) as ->.
  { destruct (filter (similar r) rest) as [|x l] eqn:Hf; [done|].
    assert (x ∈ filter (similar r) rest) as [Hsim Hx]%list_elem_of_filter
      by (rewrite Hf; left).
    destruct (Hpairs r x); [|done].
    by apply sublist_skip, singleton_sublist_l. }
  rewrite H; [by destruct (reconciled r)|].
  intros x y Hxy. apply Hpairs. apply sublist_cons.
  etrans; [done|]. apply sublist_filter.
Qed.

(** X10. When no record of the batch matches an earlier one on normalized
    [ID] or normalized title, the grouper finds no group, whatever the
    library holds: such an upload is merged without review. *)
Theorem find_similar_entries_no_pairs
    (entries existing_entries : list bib_entry)
    (similar_groups : list (list bib_entry)) :
  find_similar_entries entries existing_entries = Ok similar_groups →
  (∀ r r2, [r; r2] `sublist_of` entries → ¬ similar r r2) →
  similar_groups = [].
Proof.
  intros ->%find_similar_entries_groups Hpairs.
  by apply anchor_groups_no_pairs.
Qed.

Lemma find_similar_entries_no_pairs_witness :
  @nil (list bib_entry) = [].
Proof.
  apply (find_similar_entries_no_pairs [new_dl_a; new_c] [lib_deep] []).
  - reflexivity.
  - intros r r2 Hsub Hsim.
    apply sublist_cons_r in Hsub as [Hsub|(l' & [= -> <-] & Hsub)].
    + apply sublist_cons_r in Hsub as [Hsub|(l' & [= _ <-] & Hsub)].
      * by apply sublist_nil_r in Hsub.
      * by apply sublist_nil_r in Hsub.
    + apply singleton_sublist_l, list_elem_of_singleton in Hsub as ->.
      vm_compute in Hsim. by destruct Hsim.
Defined.

(** * Properties of the session around the engine *)

(** ** Byte decoding *)

Lemma length_string_of_list_byte (l : list byte) :
  String.length (String.string_of_list_byte l) = length l.
Proof.
  unfold String.string_of_list_byte.
  induction l as [|b l IH]; simpl; [done|]. by rewrite IH.
Qed.

(** X11. Latin-1 decodes every byte sequence, so [safe_decode] is the UTF-8
    decoding when there is one and the Latin-1 decoding otherwise: the GBK
    codec and the lossy fallback are never consulted, and a text that is
    not UTF-8 keeps one character per byte, from which the bytes can be
    read back. *)
Theorem safe_decode_latin_1
    (decode_utf_8 decode_gbk : list byte → option string)
    (decode_utf_8_ignore : list byte → string) (bytes_data : list byte) :
  safe_decode decode_utf_8 decode_gbk decode_utf_8_ignore bytes_data
  = default (String.string_of_list_byte bytes_data) (decode_utf_8 bytes_data)
  ∧ (∀ decode_gbk' decode_utf_8_ignore',
       safe_decode decode_utf_8 decode_gbk' decode_utf_8_ignore' bytes_data
       = safe_decode decode_utf_8 decode_gbk decode_utf_8_ignore bytes_data)
  ∧ (decode_utf_8 bytes_data = None →
     String.list_byte_of_string
       (safe_decode decode_utf_8 decode_gbk decode_utf_8_ignore bytes_data)
     = bytes_data
     ∧ String.length
         (safe_decode decode_utf_8 decode_gbk decode_utf_8_ignore bytes_data)
       = length bytes_data).
Proof.
  assert (∀ g i, safe_decode decode_utf_8 g i bytes_data
                 = default (String.string_of_list_byte bytes_data)
                     (decode_utf_8 bytes_data)) as Heq.
  { intros g i. unfold safe_decode. simpl. by destruct (decode_utf_8 _). }
  split_and!.
  - apply Heq.
  - intros g i. by rewrite !Heq.
  - intros Hnone. rewrite Heq, Hnone. simpl. split.
    + apply String.list_byte_of_string_of_list_byte.
    + apply length_string_of_list_byte.
Qed.

Lemma safe_decode_latin_1_witness :
  String.list_byte_of_string
    (safe_decode (λ _, None) (λ _, None) (λ _, String.EmptyString)
       [x41; xe9; xff])
  = [x41; xe9; xff].
Proof.
  apply (safe_decode_latin_1 (λ _, None) (λ _, None)
           (λ _, String.EmptyString) [x41; xe9; xff]).
  reflexivity.
Defined.

(** ** Direct merge *)

Lemma merge_entries_NoDup (existing batch merged : list bib_entry) (a u : nat) :
  merge_entries existing batch = Ok (merged, a, u) →
  NoDup (normTitle <$> merged).
Proof.
  intros (m0 & m & Hm0 & Hm & ->)%merge_entries_inv.
  assert (od_wf m) as Hwf.
  { apply (for_each_merge_wf batch (m0, 0, 0) (m, a, u));
      [by apply dict_by_wf in Hm0|done]. }
  rewrite od_wf_normTitle by done. by destruct Hwf.
Qed.

Lemma merge_entries_again (existing batch merged : list bib_entry) (a u : nat) :
  merge_entries existing batch = Ok (merged, a, u) →
  merge_entries merged batch = Ok (merged, 0, 0).
Proof.
  intros (m0 & m & Hm0 & Hm & ->)%merge_entries_inv.
  assert (od_wf m) as Hwf.
  { apply (for_each_merge_wf batch (m0, 0, 0) (m, a, u));
      [by apply dict_by_wf in Hm0|done]. }
  unfold merge_entries. rewrite dict_by_values by done. simpl.
  rewrite for_each_merge_noop; [done|].
  apply (for_each_merge_covers _ _ _ Hm).
Qed.


Section session_properties.
(** The properties hold whatever the codecs, the parser and the writer
    answer. *)
Variable decode_utf_8 : list byte → option string.
Variable decode_gbk : list byte → option string.
Variable decode_utf_8_ignore : list byte → string.
Variable loads : string → option (list bib_entry).
Variable loads_with_parser : string → option (list bib_entry).
Variable dumps : list bib_entry → option string.

Lemma direct_merge_entries_steps
    (entries_to_import : list bib_entry) (s s' : session_state)
    (shown : list notice) (o : outcome) :
  direct_merge_entries loads loads_with_parser dumps entries_to_import s
  = (s', shown, o) →
  match o with
  | returned => False
  | rerun =>
      no_pending_import s'
      ∧ ∃ added updated,
          last shown = Some (success_import_complete added updated)
  | _ => s' = s ∧ shown = []
  end.
Proof.
  unfold direct_merge_entries.
  destruct (dumps entries_to_import) as [bib_str|]; [|by intros [= <- <- <-]].
  destruct (merge_bib_data _ _ _ _) as [[[merged a] u]|e];
    [|by intros [= <- <- <-]].
  intros [= <- <- <-]. split; [done|].
  exists a, u. by destruct (parse _ _ _).
Qed.

(** X12. [direct_merge_entries] never returns to its caller: either an exception
    leaves it before anything is stored or shown, or it ends in a rerun with
    the five keys of the pending import deleted, success shown, and a
    library whose normalized titles are pairwise distinct, unless the text
    the writer produced could not be parsed: then the library is the old
    one and "Added 0, Updated 0" is shown as a success all the same. *)
Theorem direct_merge_entries_outcome
    (entries_to_import : list bib_entry) (s s' : session_state)
    (shown : list notice) (o : outcome) :
  direct_merge_entries loads loads_with_parser dumps entries_to_import s
  = (s', shown, o) →
  match o with
  | returned => False
  | rerun =>
      no_pending_import s'
      ∧ ∃ bib_str added updated,
          dumps entries_to_import = Some bib_str
          ∧ last shown = Some (success_import_complete added updated)
          ∧ match parse loads loads_with_parser bib_str with
            | Some _ => NoDup (normTitle <$> db_entries s')
            | None =>
                db_entries s' = db_entries s ∧ added = 0 ∧ updated = 0
                ∧ shown = [error_parsing_bibtex; success_import_complete 0 0]
            end
  | _ => s' = s ∧ shown = []
  end.
Proof.
  unfold direct_merge_entries.
  destruct (dumps entries_to_import) as [bib_str|]; [|by intros [= <- <- <-]].
  destruct (merge_bib_data _ _ _ _) as [[[merged a] u]|e] eqn:Hm;
    [|by intros [= <- <- <-]].
  intros [= <- <- <-]. split; [done|].
  exists bib_str, a, u. split_and!; [done| |].
  - by destruct (parse _ _ _).
  - unfold merge_bib_data in Hm.
    destruct (parse _ _ _) as [batch|]; simpl.
    + by apply merge_entries_NoDup in Hm.
    + by injection Hm as <- <- <-.
Qed.

(** X13. Running the same direct merge a second time leaves the session as the
    first run left it and shows "Added 0, Updated 0". *)
Theorem direct_merge_entries_again
    (entries_to_import : list bib_entry) (s s1 : session_state)
    (shown : list notice) :
  direct_merge_entries loads loads_with_parser dumps entries_to_import s
  = (s1, shown, rerun) →
  ∃ shown',
    direct_merge_entries loads loads_with_parser dumps entries_to_import s1
    = (s1, shown', rerun)
    ∧ last shown' = Some (success_import_complete 0 0).
Proof.
  unfold direct_merge_entries.
  destruct (dumps entries_to_import) as [bib_str|]; [|done].
  destruct (merge_bib_data _ _ _ _) as [[[merged a] u]|e] eqn:Hm; [|done].
  intros [= <- _]. simpl.
  assert (merge_bib_data loads loads_with_parser merged bib_str
          = Ok (merged, 0, 0)) as ->.
  { unfold merge_bib_data in *. destruct (parse _ _ _) as [batch|].
    - by apply merge_entries_again in Hm.
    - by injection Hm as <- _ _. }
  eexists. split; [done|]. by destruct (parse _ _ _).
Qed.

(** ** Upload *)

Lemma read_files_spec (uploaded_files : list uploaded_file)
    (acc : list bib_entry * list notice) :
  foldl (read_file decode_utf_8 decode_gbk decode_utf_8_ignore loads
           loads_with_parser) acc uploaded_files
  = (acc.1
     ++ concat (omap (λ u_file,
                        parse loads loads_with_parser
                          (safe_decode decode_utf_8 decode_gbk
                             decode_utf_8_ignore (getvalue u_file)))
                  uploaded_files),
     acc.2
     ++ ((λ u_file, error_parsing (name u_file))
         <$> filter (λ u_file, ¬ parses decode_utf_8 decode_gbk
                                   decode_utf_8_ignore loads loads_with_parser
                                   u_file)
               uploaded_files)).
Proof.
  revert acc. induction uploaded_files as [|f fs IH]; intros [es sh].
  - simpl. by rewrite !app_nil_r.
  - cbn [foldl]. rewrite IH. rewrite filter_cons. unfold read_file.
    cbn [omap list_omap].
    destruct (decide (¬ parses _ _ _ _ _ f)) as [Hf|Hf]; unfold parses in Hf.
    + destruct (parse _ _ _) as [entries|]; [exfalso; by apply Hf|].
      cbn [fst snd fmap list_fmap]. by rewrite <-(assoc_L (++)).
    + destruct (parse _ _ _) as [entries|];
        [|exfalso; apply Hf; intros [? ?]; done].
      cbn [fst snd concat]. by rewrite <-(assoc_L (++)).
Qed.

Lemma read_files_parsing (uploaded_files : list uploaded_file) :
  omap (λ u_file,
          parse loads loads_with_parser
            (safe_decode decode_utf_8 decode_gbk decode_utf_8_ignore
               (getvalue u_file)))
    (filter (parses decode_utf_8 decode_gbk decode_utf_8_ignore loads
               loads_with_parser) uploaded_files)
  = omap (λ u_file,
            parse loads loads_with_parser
              (safe_decode decode_utf_8 decode_gbk decode_utf_8_ignore
                 (getvalue u_file)))
      uploaded_files
  ∧ filter (λ u_file, ¬ parses decode_utf_8 decode_gbk decode_utf_8_ignore
                        loads loads_with_parser u_file)
      (filter (parses decode_utf_8 decode_gbk decode_utf_8_ignore loads
                 loads_with_parser) uploaded_files)
    = [].
Proof.
  induction uploaded_files as [|f fs [IH1 IH2]]; [done|].
  rewrite filter_cons.
  destruct (decide (parses _ _ _ _ _ f)) as [Hf|Hf].
  - rewrite filter_cons, decide_False by (by intros Hn).
    split; [|done]. unfold omap in *. cbn [list_omap]. by rewrite IH1.
  - split; [|done]. unfold omap in *. cbn [list_omap]. unfold parses in Hf.
    destruct (parse _ _ _) as [entries|]; [exfalso; by apply Hf|done].
Qed.

(** X14. What an upload leaves behind.  The library changes only when the upload
    ends in the rerun of a direct merge, which also clears the pending
    import.  When the upload returns, either no file gave a record and only
    the phase was set, or the review is pending: the stored groups are not
    empty and are exactly what the grouper finds in the stored batch against
    the untouched library, and the stored batch has text titles and pairwise
    distinct (normalized title, normalized ID) pairs.  An exception leaves
    only the phase set. *)
Theorem process_uploaded_files_effects
    (uploaded_files : list uploaded_file) (s s' : session_state)
    (shown : list notice) (o : outcome) :
  process_uploaded_files decode_utf_8 decode_gbk decode_utf_8_ignore loads
    loads_with_parser dumps uploaded_files s = (s', shown, o) →
  match o with
  | rerun =>
      no_pending_import s'
      ∧ ∃ added updated,
          last shown = Some (success_import_complete added updated)
  | returned =>
      db_entries s' = db_entries s
      ∧ conflict_selections s' = conflict_selections s
      ∧ conflicts_processed s' = conflicts_processed s
      ∧ (s' = set_import_phase "processing" s
         ∧ last shown = Some error_no_valid_entries
         ∨ import_phase s' = Some "review"
           ∧ ∃ groups batch,
               similar_groups s' = Some groups
               ∧ all_new_entries s' = Some batch
               ∧ groups ≠ []
               ∧ find_similar_entries batch (db_entries s') = Ok groups
               ∧ Forall text_title batch
               ∧ NoDup (pair_of <$> batch)
               ∧ last shown = Some (warning_similar_groups (length groups)))
  | _ => s' = set_import_phase "processing" s
  end.
Proof.
  unfold process_uploaded_files.
  destruct (foldl _ _ uploaded_files) as [new_entries shown0].
  destruct new_entries as [|e0 new_entries].
  { intros [= <- <- <-]. split_and!; [done..|]. left.
    split; [done|]. by rewrite last_snoc. }
  destruct (remove_exact_duplicates _) as [batch|ex] eqn:Hdedup;
    [|by intros [= <- <- <-]].
  destruct (find_similar_entries _ _) as [groups|ex] eqn:Hgroups;
    [|by intros [= <- <- <-]].
  destruct groups as [|g groups].
  - destruct (direct_merge_entries _ _ _ _ _) as [[s1 shown1] o1] eqn:Hmerge.
    intros [= <- <- <-].
    pose proof (direct_merge_entries_steps _ _ _ _ _ Hmerge) as Hsteps.
    destruct o1; [done| | |]; try by destruct Hsteps as [-> _].
    destruct Hsteps as (Hclean & a & u & Hlast). split; [done|].
    exists a, u. destruct shown1 as [|n shown1]; [done|].
    by rewrite last_app_cons.
  - intros [= <- <- <-]. split_and!; [done..|]. right. split; [done|].
    exists (g :: groups), batch. cbn [similar_groups all_new_entries db_entries].
    apply remove_exact_duplicates_Ok in Hdedup as [Hbatch Htext].
    split_and!; [done..| | |by rewrite last_snoc].
    + rewrite Hbatch, exact_duplicate_filter_keep_unseen.
      apply Forall_forall. intros x Hx. rewrite Forall_forall in Htext.
      apply Htext. eapply elem_of_submseteq; [done|].
      apply sublist_submseteq, keep_unseen_sublist.
    + rewrite Hbatch, exact_duplicate_filter_keep_unseen.
      apply keep_unseen_NoDup.
Qed.

(** X15. Files that neither parser attempt can read are reported by name, in
    upload order and before anything else is shown, and are otherwise
    ignored: the session and the outcome are those of the upload without
    them. *)
Theorem process_uploaded_files_skips_unreadable
    (uploaded_files : list uploaded_file) (s s' : session_state)
    (shown : list notice) (o : outcome) :
  process_uploaded_files decode_utf_8 decode_gbk decode_utf_8_ignore loads
    loads_with_parser dumps uploaded_files s = (s', shown, o) →
  ∃ rest,
    shown
    = ((λ u_file, error_parsing (name u_file))
       <$> filter (λ u_file, ¬ parses decode_utf_8 decode_gbk
                                 decode_utf_8_ignore loads loads_with_parser
                                 u_file)
             uploaded_files)
      ++ rest
    ∧ process_uploaded_files decode_utf_8 decode_gbk decode_utf_8_ignore loads
        loads_with_parser dumps
        (filter (parses decode_utf_8 decode_gbk decode_utf_8_ignore loads
                   loads_with_parser) uploaded_files) s
      = (s', rest, o).
Proof.
  unfold process_uploaded_files. rewrite !read_files_spec.
  destruct (read_files_parsing uploaded_files) as [-> ->].
  cbn [fst snd app fmap list_fmap].
  destruct (concat _) as [|e0 new_entries].
  { intros [= <- <- <-]. by eexists. }
  destruct (remove_exact_duplicates _) as [batch|ex];
    [|intros [= <- <- <-]; exists []; by rewrite app_nil_r].
  destruct (find_similar_entries _ _) as [groups|ex];
    [|intros [= <- <- <-]; exists []; by rewrite app_nil_r].
  destruct groups as [|g groups].
  - destruct (direct_merge_entries _ _ _ _ _) as [[s1 shown1] o1].
    intros [= <- <- <-]. by eexists.
  - intros [= <- <- <-]. by eexists.
Qed.
End session_properties.

Lemma direct_merge_entries_outcome_witness :
  no_pending_import (merged_and_cleaned [lib_deep; new_c]).
Proof.
  refine (proj1 (direct_merge_entries_outcome loads_sample loads_fail
                   dumps_sample [new_c] session_start
                   (merged_and_cleaned [lib_deep; new_c])
                   [success_import_complete 1 0] rerun _)).
  vm_compute. reflexivity.
Defined.

Lemma direct_merge_entries_again_witness :
  ∃ shown',
    direct_merge_entries loads_sample loads_fail dumps_sample [new_c]
      (merged_and_cleaned [lib_deep; new_c])
    = (merged_and_cleaned [lib_deep; new_c], shown', rerun)
    ∧ last shown' = Some (success_import_complete 0 0).
Proof.
  apply (direct_merge_entries_again loads_sample loads_fail dumps_sample
           [new_c] session_start (merged_and_cleaned [lib_deep; new_c])
           [success_import_complete 1 0]).
  vm_compute. reflexivity.
Defined.

Lemma process_uploaded_files_effects_witness :
  db_entries session_review = db_entries session_start.
Proof.
  refine (proj1 (process_uploaded_files_effects decode_ascii decode_ascii
                   (λ _, String.EmptyString) loads_sample loads_fail
                   dumps_sample [file_bad; file_a] session_start
                   session_review
                   [error_parsing "bad.bib"; warning_similar_groups 1]
                   returned _)).
  vm_compute. reflexivity.
Defined.

Lemma process_uploaded_files_skips_unreadable_witness :
  ∃ rest,
    [error_parsing "bad.bib"; warning_similar_groups 1]
    = ((λ u_file, error_parsing (name u_file))
       <$> filter (λ u_file, ¬ parses decode_ascii decode_ascii
                                 (λ _, String.EmptyString) loads_sample
                                 loads_fail u_file)
             [file_bad; file_a])
      ++ rest
    ∧ process_uploaded_files decode_ascii decode_ascii
        (λ _, String.EmptyString) loads_sample loads_fail dumps_sample
        (filter (parses decode_ascii decode_ascii (λ _, String.EmptyString)
                   loads_sample loads_fail) [file_bad; file_a])
        session_start
      = (session_review, rest, returned).
Proof.
  apply (process_uploaded_files_skips_unreadable decode_ascii decode_ascii
           (λ _, String.EmptyString) loads_sample loads_fail dumps_sample
           [file_bad; file_a] session_start session_review
           [error_parsing "bad.bib"; warning_similar_groups 1] returned).
  vm_compute. reflexivity.
Defined.

